(** * A van Emde Boas tree over a bounded universe

    Shallow embedding of the node type [V] of [VanEmdeBoasTree.cpp]
    (universe given by a bit width, keys split with shifts and masks) and of
    its sibling source file (universe given by its size, keys split with
    division and remainder), and proofs about [insert], [erase],
    [successor] and [contains].

    C++ [int] values are modelled as [Z].  Under the preconditions of the
    operations every field stays in [[-1, U)] and the leaf mask in
    [[0, 2^U)] with [U < 32], so no [int] operation of the source
    overflows as long as the universe itself fits an [int].  A failed
    [assert], an out-of-range [block] access, a null [summary] or a shift
    by an amount outside [[0, 32)] is the error result [None]. *)

From Stdlib Require Import String ZArith List Lia Bool.
Import ListNotations.
Local Open Scope Z_scope.

(** ** Error monad *)

Definition bind {A R : Type} (m : option A) (f : A -> option R) : option R :=
  match m with
  | Some a => f a
  | None => None
  end.

Notation "x <- m ;; k" := (bind m (fun x => k))
  (at level 61, m at next level, right associativity).
Notation "' pat <- m ;; k" := (bind m (fun x => match x with pat => k end))
  (at level 61, pat pattern, m at next level, right associativity).

Definition assert (b : bool) : option unit :=
  if b then Some tt else None.

(** ** Loops *)

(** [for (int i = lo; i < lo + n; i++) st = body i st]. *)
Fixpoint for_loop {St : Type} (n : nat) (i : Z) (body : Z -> St -> St) (st : St) : St :=
  match n with
  | O => st
  | S n' => for_loop n' (i + 1) body (body i st)
  end.

(** [for (int i = lo; i < lo + n; i++) if (test i) return i;  return -1]. *)
Fixpoint first_from (n : nat) (i : Z) (test : Z -> bool) : Z :=
  match n with
  | O => -1
  | S n' => if test i then i else first_from n' (i + 1) test
  end.

(** ** The node *)

Set Warnings "-register-all".

(** [#define SMALL (1 << 5)] in one file, [#define SMALL 32] in the other. *)
Definition SMALL : Z := 32.

(** [struct V]: [summary] is [nullptr] and [block] is empty on a leaf. *)
Inductive V : Type :=
  mkV { U : Z; B : Z; min : Z; max : Z; small : Z;
        summary : option V; block : list V }.

(** The two source files differ in the constructor and in the three
    helpers [index], [high] and [low]; [insert], [erase] and [successor]
    have the same text in both. *)
Inductive policy : Type :=
| Pow2   (* VanEmdeBoasTree.cpp: bit width, shifts and masks *)
| Sqrt.  (* the sibling file: universe size, division and remainder *)

(** [int V::index(int i, int j)]: [i << B | j], resp. [i * B + j]. *)
Definition index (p : policy) (B i j : Z) : Z :=
  match p with
  | Pow2 => Z.lor (Z.shiftl i B) j
  | Sqrt => i * B + j
  end.

(** [int V::high(int x)]: [x >> B], resp. [x / B]. *)
Definition high (p : policy) (B x : Z) : Z :=
  match p with
  | Pow2 => Z.shiftr x B
  | Sqrt => Z.quot x B
  end.

(** [int V::low(int x)]: [x & ((1 << B) - 1)], resp. [x % B]. *)
Definition low (p : policy) (B x : Z) : Z :=
  match p with
  | Pow2 => Z.land x (Z.shiftl 1 B - 1)
  | Sqrt => Z.rem x B
  end.

(** [small >> i & 1] *)
Definition bit (sm i : Z) : bool :=
  negb (Z.land (Z.shiftr sm i) 1 =? 0).

(** [block[i]] read: an index outside the vector is an error. *)
Definition get (blk : list V) (i : Z) : option V :=
  if i <? 0 then None else nth_error blk (Z.to_nat i).

(** [block[i]->f(...)] for a method [f] returning a value. *)
Definition call_nth {R : Type} (f : V -> option R) : list V -> nat -> option R :=
  fix go (l : list V) (n : nat) {struct l} : option R :=
    match l with
    | [] => None
    | b :: l' =>
        match n with
        | O => f b
        | S n' => go l' n'
        end
    end.

Definition call {R : Type} (f : V -> option R) (blk : list V) (i : Z) : option R :=
  if i <? 0 then None else call_nth f blk (Z.to_nat i).

(** [block[i]->f(...)] for a method [f] that mutates the node. *)
Definition update_nth (f : V -> option V) : list V -> nat -> option (list V) :=
  fix go (l : list V) (n : nat) {struct l} : option (list V) :=
    match l with
    | [] => None
    | b :: l' =>
        match n with
        | O => match f b with Some b' => Some (b' :: l') | None => None end
        | S n' => match go l' n' with Some l'' => Some (b :: l'') | None => None end
        end
    end.

Definition update (f : V -> option V) (blk : list V) (i : Z) : option (list V) :=
  if i <? 0 then None else update_nth f blk (Z.to_nat i).

(** ** Construction *)

(** [V::V(int bits)] of VanEmdeBoasTree.cpp.  The recursion is on the bit
    width, which at least halves; [fuel] bounds its depth. *)
Fixpoint build_pow2 (fuel : nat) (bits : Z) : V :=
  let U := Z.shiftl 1 bits in
  let B := Z.shiftr bits 1 in
  if SMALL <=? U then
    match fuel with
    | O => mkV U B (-1) (-1) 0 None []
    | S fuel' =>
        let B2 := Z.shiftr (bits + 1) 1 in
        mkV U B (-1) (-1) 0
            (Some (build_pow2 fuel' B2))
            (repeat (build_pow2 fuel' B) (Z.to_nat (Z.shiftl 1 B2)))
    end
  else mkV U B (-1) (-1) 0 None [].

(** [while (blocks * B < U) ++blocks;] *)
Fixpoint count_blocks (fuel : nat) (blocks B U : Z) : Z :=
  match fuel with
  | O => blocks
  | S fuel' =>
      if blocks * B <? U then count_blocks fuel' (blocks + 1) B U else blocks
  end.

(** [V::V(int size)] of the sibling file.  [B(sqrt(U))] converts the
    double square root to [int], which is the integer square root for
    every non-negative [int]. *)
Fixpoint build_sqrt (fuel : nat) (size : Z) : V :=
  let U := size in
  let B := Z.sqrt U in
  if SMALL <=? U then
    match fuel with
    | O => mkV U B (-1) (-1) 0 None []
    | S fuel' =>
        let blocks := count_blocks (Z.to_nat U) B B U in
        mkV U B (-1) (-1) 0
            (Some (build_sqrt fuel' blocks))
            (repeat (build_sqrt fuel' B) (Z.to_nat blocks))
    end
  else mkV U B (-1) (-1) 0 None [].

(** [new V(arg)]: [arg] is the bit width for [Pow2], the size for [Sqrt]. *)
Definition V_new (p : policy) (arg : Z) : V :=
  match p with
  | Pow2 => build_pow2 (Z.to_nat arg) arg
  | Sqrt => build_sqrt (Z.to_nat arg) arg
  end.

(** The universe size [U] that [new V(arg)] declares. *)
Definition universe (p : policy) (arg : Z) : Z :=
  match p with
  | Pow2 => 2 ^ arg
  | Sqrt => arg
  end.

(** ** Operations *)

(** [void V::insert(int x)] *)
Fixpoint insert (p : policy) (v : V) (x : Z) {struct v} : option V :=
  match v with
  | mkV U B mn mx sm summ blk =>
      _ <- assert ((0 <=? x) && (x <? U)) ;;
      if mn =? -1 then Some (mkV U B x x sm summ blk)
      else
        (* if (x < min) std::swap(x, min); *)
        let '(x, mn) := if x <? mn then (mn, x) else (x, mn) in
        (* if (x > max) max = x; *)
        let mx := if mx <? x then x else mx in
        if U <? SMALL then
          Some (mkV U B mn mx (Z.lor sm (Z.shiftl 1 x)) summ blk)
        else
          let i := high p B x in
          let j := low p B x in
          bi <- get blk i ;;
          summ' <- (if min bi =? -1 then
                      match summ with
                      | Some s =>
                          match insert p s i with
                          | Some s' => Some (Some s')
                          | None => None
                          end
                      | None => None
                      end
                    else Some summ) ;;
          blk' <- update (fun b => insert p b j) blk i ;;
          Some (mkV U B mn mx sm summ' blk')
  end.

(** The rescan of leaf [erase]:
    [if (small >> i & 1) { if (min == -1) { min = i; small &= ~(1 << i); } max = i; }] *)
Definition rescan_body (i : Z) (st : Z * Z * Z) : Z * Z * Z :=
  let '(mn, mx, sm) := st in
  if bit sm i then
    let '(mn, sm) :=
      if mn =? -1 then (i, Z.land sm (Z.lnot (Z.shiftl 1 i))) else (mn, sm) in
    (mn, i, sm)
  else (mn, mx, sm).

(** [void V::erase(int x)] *)
Fixpoint erase (p : policy) (v : V) (x : Z) {struct v} : option V :=
  match v with
  | mkV U B mn mx sm summ blk =>
      _ <- assert ((0 <=? x) && (x <? U)) ;;
      if U <? SMALL then
        let mn := if x =? mn then -1 else mn in
        let mx := if x =? mx then mn else mx in
        let sm := Z.land sm (Z.lnot (Z.shiftl 1 x)) in
        let '(mn, mx, sm) := for_loop (Z.to_nat U) 0 rescan_body (mn, mx, sm) in
        Some (mkV U B mn mx sm summ blk)
      else
        (* if (x == min): either the early return, or the new x and min *)
        r <- (if x =? mn then
                match summ with
                | Some s =>
                    let i := min s in
                    if i =? -1 then Some None
                    else
                      bi <- get blk i ;;
                      let x' := index p B i (min bi) in
                      Some (Some (x', x'))
                | None => None
                end
              else Some (Some (x, mn))) ;;
        match r with
        | None => Some (mkV U B (-1) (-1) sm summ blk)
        | Some (x, mn) =>
            blk' <- update (fun b => erase p b (low p B x)) blk (high p B x) ;;
            bh <- get blk' (high p B x) ;;
            summ' <- (if min bh =? -1 then
                        match summ with
                        | Some s =>
                            match erase p s (high p B x) with
                            | Some s' => Some (Some s')
                            | None => None
                            end
                        | None => None
                        end
                      else Some summ) ;;
            mx' <- (if x =? mx then
                      s <- summ' ;;
                      let i := max s in
                      if i =? -1 then Some mn
                      else
                        bi <- get blk' i ;;
                        Some (index p B i (max bi))
                    else Some mx) ;;
            Some (mkV U B mn mx' sm summ' blk')
        end
  end.

(** [int V::successor(int x)] *)
Fixpoint successor (p : policy) (v : V) (x : Z) {struct v} : option Z :=
  match v with
  | mkV U B mn mx sm summ blk =>
      _ <- assert ((0 <=? x) && (x <? U)) ;;
      if x <? mn then Some mn
      else if U <? SMALL then
        Some (first_from (Z.to_nat (U - (x + 1))) (x + 1) (bit sm))
      else
        let i := high p B x in
        let j := low p B x in
        bi <- get blk i ;;
        if j <? max bi then
          j' <- call (fun b => successor p b j) blk i ;;
          Some (index p B i j')
        else
          match summ with
          | Some s =>
              i' <- successor p s i ;;
              if negb (i' =? -1) then
                bi' <- get blk i' ;;
                let j' := min bi' in
                _ <- assert (negb (j' =? -1)) ;;
                Some (index p B i' j')
              else Some (-1)
          | None => None
          end
  end.

(** [bool V::contains(int x)]; only VanEmdeBoasTree.cpp defines it.  With
    the helpers of the sibling file the same body is that file's
    membership test. *)
Fixpoint contains (p : policy) (v : V) (x : Z) {struct v} : option bool :=
  match v with
  | mkV U B mn mx sm summ blk =>
      if x =? mn then Some true
      else if U <? SMALL then
        _ <- assert ((0 <=? x) && (x <? 32)) ;;
        Some (bit sm x)
      else call (fun b => contains p b (low p B x)) blk (high p B x)
  end.

(** ** Sequences of operations and the reference set *)

Inductive op : Type :=
| Insert (x : Z)
| Erase (x : Z).

Definition apply_op (p : policy) (v : V) (o : op) : option V :=
  match o with
  | Insert x => insert p v x
  | Erase x => erase p v x
  end.

Fixpoint run (p : policy) (v : V) (ops : list op) : option V :=
  match ops with
  | [] => Some v
  | o :: ops' => v' <- apply_op p v o ;; run p v' ops'
  end.

(** The reference set: the list of keys inserted and not yet erased. *)
Definition memb (x : Z) (ref : list Z) : bool := existsb (Z.eqb x) ref.

Definition ref_op (ref : list Z) (o : op) : list Z :=
  match o with
  | Insert x => x :: ref
  | Erase x => filter (fun y => negb (y =? x)) ref
  end.

Definition ref_run (ref : list Z) (ops : list op) : list Z :=
  fold_left ref_op ops ref.

(** The preconditions of one operation against the reference set. *)
Definition pre_op (U : Z) (ref : list Z) (o : op) : bool :=
  match o with
  | Insert x => (0 <=? x) && (x <? U) && negb (memb x ref)
  | Erase x => (0 <=? x) && (x <? U) && memb x ref
  end.

(** A sequence of operations that respects every precondition. *)
Fixpoint valid_ops (U : Z) (ref : list Z) (ops : list op) : bool :=
  match ops with
  | [] => true
  | o :: ops' => pre_op U ref o && valid_ops U (ref_op ref o) ops'
  end.

(** [r] is the answer of a successor query for [x] over the set [S]. *)
Definition is_successor (S : Z -> Prop) (x r : Z) : Prop :=
  (r = -1 /\ forall y, S y -> y <= x) \/
  (S r /\ x < r /\ forall y, S y -> x < y -> r <= y).

(** ** The decomposition policies as division by the split width *)

(** The size of the universe of each block of a node with field [B]. *)
Definition W (p : policy) (B : Z) : Z :=
  match p with
  | Pow2 => 2 ^ B
  | Sqrt => B
  end.

(** The values of [B] at which the helpers are defined. *)
Definition split_ok (p : policy) (B : Z) : Prop :=
  match p with
  | Pow2 => 0 <= B
  | Sqrt => 0 < B
  end.

(** ** The representation invariant *)

(** The keys that block [i] of a node with minimum [mn] holds. *)
Definition Sblock (S : Z -> Prop) (mn W i : Z) : Z -> Prop :=
  fun j => 0 <= j < W /\ S (i * W + j) /\ i * W + j <> mn.

(** The keys that the summary of a node with blocks [blk] holds. *)
Definition Ssum (blk : list V) : Z -> Prop :=
  fun i => exists b, get blk i = Some b /\ min b <> -1.

(** [min] and [max] are the extremal members of [S], or both [-1]. *)
Definition extremal (v : V) (S : Z -> Prop) : Prop :=
  (forall x, S x -> 0 <= x < U v) /\
  (min v = -1 -> max v = -1 /\ forall x, ~ S x) /\
  (min v <> -1 -> S (min v) /\ S (max v) /\ forall x, S x -> min v <= x <= max v).

(** A leaf: a small universe, no children. *)
Definition is_leaf (v : V) : Prop :=
  U v < SMALL /\ summary v = None /\ block v = [].

(** [Inv p v S]: the node [v] is well formed and stores exactly the set [S]. *)
Inductive Inv (p : policy) : V -> (Z -> Prop) -> Prop :=
| Inv_leaf v S :
    is_leaf v ->
    extremal v S ->
    (forall i, Z.testbit (small v) i = true <-> S i /\ i <> min v) ->
    Inv p v S
| Inv_node v s S :
    SMALL <= U v ->
    split_ok p (B v) ->
    summary v = Some s ->
    U v <= Z.of_nat (length (block v)) * W p (B v) ->
    U s = Z.of_nat (length (block v)) ->
    (forall i b, nth_error (block v) i = Some b -> U b = W p (B v)) ->
    extremal v S ->
    (forall i b, nth_error (block v) i = Some b ->
                 Inv p b (Sblock S (min v) (W p (B v)) (Z.of_nat i))) ->
    Inv p s (Ssum (block v)) ->
    Inv p v S.


(** [block[n] = b] as a pure list update. *)
Fixpoint set_nth (l : list V) (n : nat) (b : V) : list V :=
  match l with
  | [] => []
  | a :: l' =>
      match n with
      | O => b :: l'
      | S n' => a :: set_nth l' n' b
      end
  end.

(** ** Sets of keys and auxiliary predicates *)

(** Reduce the projections of an explicit node. *)
Ltac fields := cbn [U B min max small summary block] in *.

(** The set [S] with the key [x] added. *)
Definition add (x : Z) (S : Z -> Prop) : Z -> Prop := fun y => y = x \/ S y.

(** No bit of [a] below [k]. *)
Definition no_bits (a k : Z) : Prop :=
  forall i, 0 <= i < k -> Z.testbit a i = false.

(** [t] is the highest bit of [a] below [k]. *)
Definition top_bit (a k t : Z) : Prop :=
  Z.testbit a t = true /\ 0 <= t < k /\
  forall i, t < i < k -> Z.testbit a i = false.

(** [b] is the lowest bit of [a]. *)
Definition bottom_bit (a b : Z) : Prop :=
  Z.testbit a b = true /\ 0 <= b /\
  forall i, 0 <= i < b -> Z.testbit a i = false.

(** The state of the rescan after the bits below [k]: untouched while no
    bit was met; afterwards [max] is the highest bit met, and an absent
    [min] has been replaced by the lowest bit, which left the mask. *)
Definition rescanned (mn mx sm k : Z) (st : Z * Z * Z) : Prop :=
  let '(m, M, s) := st in
  (no_bits sm k /\ st = (mn, mx, sm)) \/
  (top_bit sm k M /\
   ((mn <> -1 /\ m = mn /\ s = sm) \/
    (mn = -1 /\ bottom_bit sm m /\ s = Z.land sm (Z.lnot (Z.shiftl 1 m))))).

(** The set [S] without the key [x]. *)
Definition remove (x : Z) (S : Z -> Prop) : Z -> Prop := fun y => y <> x /\ S y.

(** The empty set. *)
Definition none : Z -> Prop := fun _ => False.

(** The arguments that the constructor accepts. *)
Definition arg_ok (p : policy) (arg : Z) : Prop :=
  match p with
  | Pow2 => 0 <= arg
  | Sqrt => True
  end.

(** The members of the reference set. *)
Definition members (ref : list Z) : Z -> Prop := fun x => In x ref.



(** ** The test harness *)

(** [a[i]] on a [std::vector<int>]: an index outside the vector is an error. *)
Definition vget (a : list Z) (i : Z) : option Z :=
  if i <? 0 then None else nth_error a (Z.to_nat i).





























(** ** The shape of a tree *)


(** * Proofs *)

(** ** Arithmetic of the helpers *)

Lemma W_pos p B : split_ok p B -> 0 < W p B.
Proof.
  destruct p; simpl; intros H; [apply Z.pow_pos_nonneg; lia | exact H].
Qed.

Lemma high_div p B x : split_ok p B -> 0 <= x -> high p B x = x / W p B.
Proof.
  destruct p; simpl; intros HB Hx.
  - apply Z.shiftr_div_pow2; exact HB.
  - apply Z.quot_div_nonneg; lia.
Qed.

Lemma low_mod p B x : split_ok p B -> 0 <= x -> low p B x = x mod W p B.
Proof.
  destruct p; simpl; intros HB Hx.
  - rewrite Z.shiftl_1_l, Z.sub_1_r, <- Z.ones_equiv.
    apply Z.land_ones; exact HB.
  - apply Z.rem_mod_nonneg; lia.
Qed.

Lemma testbit_small a n i : 0 <= a < 2 ^ n -> n <= i -> Z.testbit a i = false.
Proof.
  intros Ha Hi.
  destruct (Z.eq_dec a 0) as [->|Hnz]; [apply Z.bits_0|].
  apply Z.bits_above_log2; [lia|].
  assert (Z.log2 a < n); [|lia].
  apply Z.log2_lt_pow2; lia.
Qed.

Lemma index_mul p B i j :
  split_ok p B -> 0 <= j < W p B -> index p B i j = i * W p B + j.
Proof.
  destruct p; simpl; intros HB Hj; [|reflexivity].
  rewrite Z.shiftl_mul_pow2 by exact HB.
  rewrite <- Z.lxor_lor, <- Z.add_nocarry_lxor; try reflexivity.
  all: apply Z.bits_inj'; intros n Hn; rewrite Z.land_spec, Z.bits_0.
  all: destruct (Z.lt_ge_cases n B) as [Hlt|Hge].
  all: try (rewrite Z.mul_pow2_bits_low by exact Hlt; reflexivity).
  all: rewrite (testbit_small j B n) by lia; apply andb_false_r.
Qed.

Lemma div_mod_split w x :
  0 < w -> 0 <= x ->
  0 <= x / w /\ 0 <= x mod w < w /\ x = x / w * w + x mod w.
Proof.
  intros Hw Hx. repeat split.
  - apply Z.div_pos; lia.
  - apply Z.mod_pos_bound; lia.
  - apply Z.mod_pos_bound; lia.
  - rewrite (Z.div_mod x w) at 1 by lia. lia.
Qed.

Lemma div_lt_blocks w n x : 0 < w -> 0 <= x < n * w -> x / w < n.
Proof.
  intros Hw Hx. apply Z.div_lt_upper_bound; lia.
Qed.

Lemma div_mul_add w i j : 0 <= j < w -> (i * w + j) / w = i.
Proof.
  intros Hj. rewrite Z.add_comm, Z.div_add by lia.
  rewrite Z.div_small by lia. lia.
Qed.

Lemma mod_mul_add w i j : 0 <= j < w -> (i * w + j) mod w = j.
Proof.
  intros Hj. rewrite Z.add_comm, Z.mod_add by lia.
  apply Z.mod_small; lia.
Qed.

(** Keys compare like their (block, offset) pairs. *)
Lemma split_lt w i j i' j' :
  0 <= j < w -> 0 <= j' < w ->
  (i * w + j < i' * w + j' <-> i < i' \/ (i = i' /\ j < j')).
Proof. intros Hj Hj'. nia. Qed.

Lemma split_eq w i j i' j' :
  0 <= j < w -> 0 <= j' < w -> i * w + j = i' * w + j' -> i = i' /\ j = j'.
Proof.
  intros Hj Hj' H.
  assert (Hi : i = i').
  { rewrite <- (div_mul_add w i j Hj), H. apply div_mul_add. exact Hj'. }
  subst i'. lia.
Qed.

(** ** Bits of the leaf mask *)

Lemma bit_testbit sm i : 0 <= i -> bit sm i = Z.testbit sm i.
Proof.
  intros Hi. unfold bit.
  assert (E : Z.land (Z.shiftr sm i) 1 = Z.b2z (Z.testbit sm i)).
  { apply Z.bits_inj'. intros n Hn.
    rewrite Z.land_spec, Z.shiftr_spec by exact Hn.
    change 1 with (2 ^ 0). rewrite Z.pow2_bits_eqb by lia.
    destruct (Z.eqb_spec 0 n) as [<-|Hne].
    - rewrite Z.add_0_l, andb_true_r.
      destruct (Z.testbit sm i); reflexivity.
    - rewrite andb_false_r.
      destruct (Z.testbit sm i); simpl.
      + change 1 with (2 ^ 0). rewrite Z.pow2_bits_eqb by lia.
        symmetry. apply Z.eqb_neq. exact Hne.
      + symmetry. apply Z.bits_0. }
  rewrite E. destruct (Z.testbit sm i); reflexivity.
Qed.

Lemma testbit_set sm x i :
  0 <= x ->
  Z.testbit (Z.lor sm (Z.shiftl 1 x)) i = Z.testbit sm i || (i =? x).
Proof.
  intros Hx. rewrite Z.lor_spec, Z.shiftl_1_l.
  destruct (Z.lt_ge_cases i 0) as [Hneg|Hpos].
  - rewrite !Z.testbit_neg_r by exact Hneg.
    symmetry. simpl. apply Z.eqb_neq. lia.
  - rewrite Z.pow2_bits_eqb by exact Hx. rewrite (Z.eqb_sym x i). reflexivity.
Qed.

Lemma testbit_clear sm x i :
  0 <= x ->
  Z.testbit (Z.land sm (Z.lnot (Z.shiftl 1 x))) i = Z.testbit sm i && negb (i =? x).
Proof.
  intros Hx. rewrite Z.land_spec, Z.shiftl_1_l.
  destruct (Z.lt_ge_cases i 0) as [Hneg|Hpos].
  - rewrite !Z.testbit_neg_r by exact Hneg. reflexivity.
  - rewrite Z.lnot_spec by exact Hpos.
    rewrite Z.pow2_bits_eqb by exact Hx. rewrite (Z.eqb_sym x i). reflexivity.
Qed.

(** ** Block access *)

Lemma get_nth blk i b :
  get blk i = Some b <-> 0 <= i /\ nth_error blk (Z.to_nat i) = Some b.
Proof.
  unfold get. destruct (Z.ltb_spec i 0); split; intros H0.
  - discriminate.
  - lia.
  - split; [lia | exact H0].
  - apply H0.
Qed.

Lemma get_of_nat blk n : get blk (Z.of_nat n) = nth_error blk n.
Proof.
  unfold get. destruct (Z.ltb_spec (Z.of_nat n) 0); [lia|].
  rewrite Nat2Z.id. reflexivity.
Qed.

Lemma get_range blk i b : get blk i = Some b -> 0 <= i < Z.of_nat (length blk).
Proof.
  intros H. apply get_nth in H. destruct H as [Hi H].
  assert (Z.to_nat i < length blk)%nat; [|lia].
  apply nth_error_Some. rewrite H. discriminate.
Qed.

Lemma get_some blk i :
  0 <= i < Z.of_nat (length blk) -> exists b, get blk i = Some b.
Proof.
  intros Hi.
  destruct (nth_error blk (Z.to_nat i)) as [b|] eqn:E.
  - exists b. apply get_nth. split; [lia | exact E].
  - apply nth_error_None in E. lia.
Qed.

Lemma call_nth_spec {R} (f : V -> option R) blk n b :
  nth_error blk n = Some b -> call_nth f blk n = f b.
Proof.
  revert n. induction blk as [|a l IH]; intros [|n] H; simpl in *;
    try discriminate.
  - injection H as ->. reflexivity.
  - apply IH. exact H.
Qed.

Lemma call_spec {R} (f : V -> option R) blk i b :
  get blk i = Some b -> call f blk i = f b.
Proof.
  intros H. apply get_nth in H. destruct H as [Hi H].
  unfold call. destruct (Z.ltb_spec i 0); [lia|].
  apply call_nth_spec. exact H.
Qed.

Lemma update_nth_spec f blk n b b' :
  nth_error blk n = Some b -> f b = Some b' ->
  update_nth f blk n = Some (set_nth blk n b').
Proof.
  revert n. induction blk as [|a l IH]; intros [|n] H Hf; simpl in *;
    try discriminate.
  - injection H as ->. rewrite Hf. reflexivity.
  - rewrite (IH n H Hf). reflexivity.
Qed.

Lemma update_spec f blk i b b' :
  get blk i = Some b -> f b = Some b' ->
  update f blk i = Some (set_nth blk (Z.to_nat i) b').
Proof.
  intros H Hf. apply get_nth in H. destruct H as [Hi H].
  unfold update. destruct (Z.ltb_spec i 0); [lia|].
  apply update_nth_spec with b; assumption.
Qed.

Lemma set_nth_length l n b : length (set_nth l n b) = length l.
Proof.
  revert n. induction l as [|a l IH]; intros [|n]; simpl; try reflexivity.
  rewrite IH. reflexivity.
Qed.

Lemma nth_set_nth_eq l n b :
  (n < length l)%nat -> nth_error (set_nth l n b) n = Some b.
Proof.
  revert n. induction l as [|a l IH]; intros [|n] H; simpl in *; try lia.
  - reflexivity.
  - apply IH. lia.
Qed.

Lemma nth_set_nth_neq l n m b :
  n <> m -> nth_error (set_nth l n b) m = nth_error l m.
Proof.
  revert n m. induction l as [|a l IH]; intros [|n] [|m] H; simpl;
    try reflexivity; try congruence.
  apply IH. congruence.
Qed.


(** Reading the updated vector, by [int] index. *)
Lemma get_set_nth blk i b k :
  0 <= i < Z.of_nat (length blk) ->
  get (set_nth blk (Z.to_nat i) b) k = if k =? i then Some b else get blk k.
Proof.
  intros Hi. unfold get.
  destruct (Z.ltb_spec k 0) as [Hk|Hk].
  - destruct (Z.eqb_spec k i); [lia | reflexivity].
  - destruct (Z.eqb_spec k i) as [->|Hne].
    + apply nth_set_nth_eq. lia.
    + apply nth_set_nth_neq. lia.
Qed.

(** ** Basic facts about the invariant *)

Lemma extremal_ext v S S' :
  (forall x, S x <-> S' x) -> extremal v S -> extremal v S'.
Proof.
  intros E (H1 & H2 & H3). repeat split.
  - apply H1, E; assumption.
  - apply H1, E; assumption.
  - apply H2; assumption.
  - intros x Hx. apply E in Hx. revert Hx. apply H2; assumption.
  - apply E, H3; assumption.
  - apply E, H3; assumption.
  - apply H3; [assumption | apply E; assumption].
  - apply H3; [assumption | apply E; assumption].
Qed.

Lemma Sblock_ext S S' mn w i j :
  (forall x, S x <-> S' x) -> Sblock S mn w i j <-> Sblock S' mn w i j.
Proof.
  intros E. unfold Sblock. rewrite (E (i * w + j)). reflexivity.
Qed.

(** The invariant only depends on the extension of the set. *)
Lemma Inv_ext p v S S' :
  Inv p v S -> (forall x, S x <-> S' x) -> Inv p v S'.
Proof.
  intros H. revert S'.
  induction H as [v S HU Hex Hbits | v s S HU HB Hs Hlen HUs HUb Hex Hblk IHblk Hsum IHsum];
    intros S' E.
  - apply Inv_leaf.
    + exact HU.
    + apply (extremal_ext v S S' E Hex).
    + intros i. rewrite (Hbits i), (E i). reflexivity.
  - apply Inv_node with s; try assumption.
    + apply (extremal_ext v S S' E Hex).
    + intros i b Hb. apply (IHblk i b Hb).
      intros j. apply Sblock_ext. exact E.
Qed.

Lemma Inv_extremal p v S : Inv p v S -> extremal v S.
Proof. intros H. destruct H; assumption. Qed.

Lemma Inv_range p v S x : Inv p v S -> S x -> 0 <= x < U v.
Proof. intros H. apply (Inv_extremal p v S H). Qed.

Lemma Inv_empty p v S : Inv p v S -> min v = -1 -> forall x, ~ S x.
Proof. intros H Hm. apply (Inv_extremal p v S H). exact Hm. Qed.

Lemma Inv_empty_max p v S : Inv p v S -> min v = -1 -> max v = -1.
Proof. intros H Hm. apply (Inv_extremal p v S H). exact Hm. Qed.

Lemma Inv_min p v S :
  Inv p v S -> min v <> -1 -> S (min v) /\ forall x, S x -> min v <= x.
Proof.
  intros H Hm. destruct (Inv_extremal p v S H) as (_ & _ & H3).
  destruct (H3 Hm) as (Hmin & _ & Hb). split; [exact Hmin|].
  intros x Hx. apply Hb. exact Hx.
Qed.

Lemma Inv_max p v S :
  Inv p v S -> min v <> -1 -> S (max v) /\ forall x, S x -> x <= max v.
Proof.
  intros H Hm. destruct (Inv_extremal p v S H) as (_ & _ & H3).
  destruct (H3 Hm) as (_ & Hmax & Hb). split; [exact Hmax|].
  intros x Hx. apply Hb. exact Hx.
Qed.

(** A node whose set has a member has a cached minimum. *)
Lemma Inv_nonempty p v S x : Inv p v S -> S x -> min v <> -1.
Proof.
  intros H Hx Hm. apply (Inv_empty p v S H Hm x Hx).
Qed.

Lemma Inv_max_empty p v S : Inv p v S -> max v = -1 -> min v = -1.
Proof.
  intros H Hm. destruct (Z.eq_dec (min v) (-1)) as [E|E]; [exact E|].
  destruct (Inv_max p v S H E) as [Hmax _].
  apply (Inv_range p v S _ H) in Hmax. lia.
Qed.

(** The blocks of an internal node, by [int] index. *)
Lemma Inv_get_block (p : policy) (blk : list V) (T : Z -> Z -> Prop) i b :
  (forall n b, nth_error blk n = Some b -> Inv p b (T (Z.of_nat n))) ->
  get blk i = Some b ->
  Inv p b (T i).
Proof.
  intros H Hg. apply get_nth in Hg. destruct Hg as [Hi Hg].
  specialize (H _ _ Hg). rewrite Z2Nat.id in H by exact Hi. exact H.
Qed.

(** A block that holds a key is known to the summary. *)
Lemma Ssum_of_member (p : policy) (blk : list V) (T : Z -> Z -> Prop) i j :
  (forall n b, nth_error blk n = Some b -> Inv p b (T (Z.of_nat n))) ->
  0 <= i < Z.of_nat (length blk) ->
  T i j ->
  Ssum blk i.
Proof.
  intros H Hi Hj. destruct (get_some _ _ Hi) as [b Hb].
  exists b. split; [exact Hb|].
  apply (Inv_nonempty p b _ j (Inv_get_block p blk T i b H Hb) Hj).
Qed.

(** ** [contains] *)


Lemma assert_true b : b = true -> assert b = Some tt.
Proof. intros ->. reflexivity. Qed.

Lemma in_range_true x n : 0 <= x < n -> (0 <=? x) && (x <? n) = true.
Proof.
  intros H. apply andb_true_intro. split; [apply Z.leb_le | apply Z.ltb_lt]; lia.
Qed.


(** Every key of an internal node other than its minimum splits into a
    block index and a member of that block. *)
Lemma split_member S U0 len w mn y :
  0 < w -> (forall x, S x -> 0 <= x < U0) -> U0 <= len * w ->
  S y -> y <> mn ->
  exists i j, y = i * w + j /\ 0 <= i < len /\ Sblock S mn w i j.
Proof.
  intros Hw HS Hlen Hy Hne.
  pose proof (HS y Hy) as Hr.
  destruct (div_mod_split w y Hw) as (Hi & Hj & Hsplit); [lia|].
  exists (y / w), (y mod w). split; [exact Hsplit|]. split.
  - split; [exact Hi|]. apply div_lt_blocks; lia.
  - unfold Sblock. rewrite <- Hsplit. auto.
Qed.

(** ** [successor] *)

Lemma first_from_spec test n i :
  0 <= i ->
  let r := first_from n i test in
  (r = -1 /\ forall k, i <= k < i + Z.of_nat n -> test k = false) \/
  (i <= r < i + Z.of_nat n /\ test r = true /\
   forall k, i <= k < r -> test k = false).
Proof.
  revert i. induction n as [|n IH]; intros i Hi; simpl.
  - left. split; [reflexivity|]. intros k Hk. lia.
  - destruct (test i) eqn:Et.
    + right. split; [lia|]. split; [exact Et|]. intros k Hk. lia.
    + destruct (IH (i + 1)) as [[Hr Hall]|(Hr & Ht & Hall)]; [lia| |].
      * left. split; [exact Hr|]. intros k Hk.
        destruct (Z.eq_dec k i) as [->|Hne]; [exact Et|]. apply Hall. lia.
      * right. split; [lia|]. split; [exact Ht|]. intros k Hk.
        destruct (Z.eq_dec k i) as [->|Hne]; [exact Et|]. apply Hall. lia.
Qed.

Lemma successor_eq p U B mn mx sm summ blk x :
  successor p (mkV U B mn mx sm summ blk) x =
  _ <- assert ((0 <=? x) && (x <? U)) ;;
  if x <? mn then Some mn
  else if U <? SMALL then
    Some (first_from (Z.to_nat (U - (x + 1))) (x + 1) (bit sm))
  else
    let i := high p B x in
    let j := low p B x in
    bi <- get blk i ;;
    if j <? max bi then
      j' <- call (fun b => successor p b j) blk i ;;
      Some (index p B i j')
    else
      match summ with
      | Some s =>
          i' <- successor p s i ;;
          if negb (i' =? -1) then
            bi' <- get blk i' ;;
            let j' := min bi' in
            _ <- assert (negb (j' =? -1)) ;;
            Some (index p B i' j')
          else Some (-1)
      | None => None
      end.
Proof. reflexivity. Qed.

(** Under the invariant [successor] returns the least stored key above
    [x], or [-1] when there is none. *)
Lemma successor_spec p v S :
  Inv p v S ->
  forall x, 0 <= x < U v ->
  exists r, successor p v x = Some r /\ is_successor S x r.
Proof.
  induction 1 as [v S HU Hex Hbits | v s S HU HB Hs Hlen HUs HUb Hex Hblk IHblk Hsum IHsum];
    intros x Hx.
  - destruct v as [U0 B0 mn mx sm summ blk]; fields.
    pose proof (proj1 HU) as HU0; fields.
    destruct Hex as (Hrange & Hempty & Hnonempty); fields.
    rewrite successor_eq, assert_true by (apply in_range_true; lia).
    cbn [bind].
    destruct (Z.ltb_spec x mn) as [Hlt|Hge].
    + exists mn. split; [reflexivity|]. right.
      destruct Hnonempty as (Hmin & _ & Hb); [lia|].
      split; [exact Hmin|]. split; [exact Hlt|].
      intros y Hy _. apply Hb. exact Hy.
    + destruct (Z.ltb_spec U0 SMALL) as [_|HU']; [|lia].
      eexists. split; [reflexivity|].
      assert (Hmem : forall y, S y -> x < y -> bit sm y = true).
      { intros y Hy Hxy. rewrite bit_testbit by lia.
        apply Hbits. split; [exact Hy|].
        intros ->. destruct (Z.eq_dec mn (-1)) as [E|E].
        - apply (proj2 (Hempty E) mn Hy).
        - lia. }
      destruct (first_from_spec (bit sm) (Z.to_nat (U0 - (x + 1))) (x + 1))
        as [[Hr Hall]|(Hr & Ht & Hall)]; [lia| |].
      * left. split; [exact Hr|]. intros y Hy.
        destruct (Z.le_gt_cases y x) as [Hle|Hgt]; [exact Hle|].
        pose proof (Hrange y Hy) as Hy'.
        specialize (Hmem y Hy Hgt).
        rewrite Hall in Hmem by lia. discriminate.
      * right. rewrite bit_testbit in Ht by lia.
        apply Hbits in Ht. destruct Ht as [Ht _].
        split; [exact Ht|]. split; [lia|].
        intros y Hy Hxy.
        destruct (Z.le_gt_cases (first_from (Z.to_nat (U0 - (x + 1))) (x + 1) (bit sm)) y)
          as [Hle|Hgt]; [exact Hle|].
        specialize (Hmem y Hy Hxy).
        rewrite Hall in Hmem by lia. discriminate.
  - destruct v as [U0 B0 mn mx sm summ blk]; fields. subst summ.
    pose proof Hex as (Hrange & Hempty & Hnonempty); fields.
    rewrite successor_eq, assert_true by (apply in_range_true; lia).
    cbn [bind].
    destruct (Z.ltb_spec x mn) as [Hlt|Hge].
    + exists mn. split; [reflexivity|]. right.
      destruct Hnonempty as (Hmin & _ & Hb); [lia|].
      split; [exact Hmin|]. split; [exact Hlt|].
      intros y Hy _. apply Hb. exact Hy.
    + destruct (Z.ltb_spec U0 SMALL) as [HU'|_]; [lia|].
      pose proof (W_pos p B0 HB) as HW.
      set (w := W p B0) in *.
      destruct (div_mod_split w x HW) as (Hi & Hj & Hsplit); [lia|].
      cbv zeta. rewrite high_div, low_mod by (assumption || lia).
      fold w. set (i := x / w) in *. set (j := x mod w) in *.
      assert (Hilen : 0 <= i < Z.of_nat (length blk)).
      { split; [exact Hi|]. apply div_lt_blocks; lia. }
      destruct (get_some blk i Hilen) as [bi Hbi].
      rewrite Hbi. cbn [bind].
      pose proof (Inv_get_block p _ _ i bi Hblk Hbi) as Hinv.
      assert (HUbi : U bi = w).
      { apply get_nth in Hbi. apply (HUb _ _ (proj2 Hbi)). }
      (* members above x are not the minimum, and split *)
      assert (Habove : forall y, S y -> x < y ->
                exists i' j', y = i' * w + j' /\ 0 <= i' < Z.of_nat (length blk) /\
                              Sblock S mn w i' j' /\ (i < i' \/ (i = i' /\ j < j'))).
      { intros y Hy Hxy.
        destruct (split_member S U0 (Z.of_nat (length blk)) w mn y HW Hrange Hlen Hy)
          as (i' & j' & Hy' & Hi' & Hj'); [lia|].
        exists i', j'. split; [exact Hy'|]. split; [exact Hi'|]. split; [exact Hj'|].
        apply (split_lt w i j i' j'); [lia | apply Hj' | lia]. }
      destruct (Z.ltb_spec j (max bi)) as [Hjmax|Hjmax].
      * (* the successor is in the same block *)
        assert (Hne : min bi <> -1).
        { intros E. pose proof (Inv_empty_max p _ _ Hinv E). lia. }
        destruct (Inv_max p _ _ Hinv Hne) as [Hmaxin _].
        rewrite (call_spec _ _ _ _ Hbi).
        apply get_nth in Hbi. destruct Hbi as [_ Hbi].
        destruct (IHblk _ _ Hbi j) as (r & Hr & Hsucc); [lia|].
        rewrite Z2Nat.id in Hsucc by exact Hi. fold w in Hsucc.
        rewrite Hr. cbn [bind].
        destruct Hsucc as [[_ Hall]|(Hin & Hjr & Hleast)].
        { specialize (Hall _ Hmaxin). lia. }
        pose proof Hin as (Hrr & HSr & Hrmn).
        rewrite index_mul by assumption. fold w.
        eexists. split; [reflexivity|]. right.
        split; [exact HSr|]. split; [lia|].
        intros y Hy Hxy.
        destruct (Habove y Hy Hxy) as (i' & j' & -> & Hi' & Hj' & [Hlt|[<- Hlt]]).
        -- destruct Hj' as (Hj' & _). nia.
        -- specialize (Hleast j' Hj' Hlt). lia.
      * (* the successor is the minimum of the next non-empty block *)
        assert (Hblock : forall j', Sblock S mn w i j' -> j' <= j).
        { intros j' Hj'.
          pose proof (Inv_nonempty p _ _ _ Hinv Hj') as Hne.
          destruct (Inv_max p _ _ Hinv Hne) as [_ Hub].
          specialize (Hub j' Hj'). lia. }
        destruct (IHsum i) as (r & Hr & Hsucc); [lia|].
        rewrite Hr. cbn [bind].
        destruct Hsucc as [[-> Hall]|(Hin & Hir & Hleast)].
        { change (negb (-1 =? -1)) with false. cbv iota.
          exists (-1). split; [reflexivity|]. left. split; [reflexivity|].
          intros y Hy.
          destruct (Z.le_gt_cases y x) as [Hle|Hgt]; [exact Hle|].
          destruct (Habove y Hy Hgt) as (i' & j' & -> & Hi' & Hj' & [Hlt|[<- Hlt]]).
          - pose proof (Ssum_of_member p _ _ i' j' Hblk Hi' Hj') as Hs'.
            specialize (Hall i' Hs'). lia.
          - specialize (Hblock j' Hj'). lia. }
        destruct Hin as (b' & Hb' & Hb'min).
        pose proof (get_range _ _ _ Hb') as Hrlen.
        destruct (Z.eqb_spec r (-1)) as [E|_]; [lia|]. cbn [negb].
        rewrite Hb'. cbn [bind]. cbv zeta.
        rewrite assert_true by (apply negb_true_iff, Z.eqb_neq; exact Hb'min).
        cbn [bind].
        pose proof (Inv_get_block p _ _ r b' Hblk Hb') as Hinv'.
        destruct (Inv_min p _ _ Hinv' Hb'min) as [(Hmr & HSm & Hmmn) Hlb].
        rewrite index_mul by assumption. fold w.
        eexists. split; [reflexivity|]. right.
        split; [exact HSm|]. split; [nia|].
        intros y Hy Hxy.
        destruct (Habove y Hy Hxy) as (i' & j' & -> & Hi' & Hj' & [Hlt|[<- Hlt]]).
        -- pose proof (Ssum_of_member p _ _ i' j' Hblk Hi' Hj') as Hs'.
           specialize (Hleast i' Hs' Hlt).
           destruct (Z.eq_dec r i') as [->|Hne].
           ++ specialize (Hlb j' Hj'). lia.
           ++ destruct Hj' as (Hj' & _). nia.
        -- specialize (Hblock j' Hj'). lia.
Qed.

(** ** Rebuilding an internal node around one changed block *)

Lemma nth_set_nth_cases l i b' n b :
  nth_error (set_nth l i b') n = Some b ->
  (n = i /\ b = b') \/ (n <> i /\ nth_error l n = Some b).
Proof.
  intros H. destruct (Nat.eq_dec n i) as [-> |Hne].
  - left. split; [reflexivity|].
    assert (Hlt : (i < length l)%nat).
    { rewrite <- (set_nth_length l i b'). apply nth_error_Some.
      rewrite H. discriminate. }
    rewrite nth_set_nth_eq in H by exact Hlt. congruence.
  - right. split; [exact Hne|].
    rewrite nth_set_nth_neq in H by congruence. exact H.
Qed.

Lemma Ssum_set_nth blk i b' k :
  0 <= i < Z.of_nat (length blk) ->
  Ssum (set_nth blk (Z.to_nat i) b') k <->
  (k = i /\ min b' <> -1) \/ (k <> i /\ Ssum blk k).
Proof.
  intros Hi. unfold Ssum.
  setoid_rewrite (get_set_nth blk i b' k Hi).
  destruct (Z.eqb_spec k i) as [-> |Hne]; split.
  - intros (b & Hb & Hm). injection Hb as <-. left. auto.
  - intros [[_ Hm]|[Hne _]]; [|congruence]. exists b'. auto.
  - intros H. right. auto.
  - intros [[He _]|[_ H]]; [congruence | exact H].
Qed.

(** The blocks of the rebuilt node satisfy their invariants when the
    changed block does and the others keep their sets. *)
Lemma blocks_set_nth (P : nat -> V -> Prop) (Q : nat -> V -> Prop) blk i b' :
  (forall n b, nth_error blk n = Some b -> P n b) ->
  (forall n b, n <> i -> P n b -> Q n b) ->
  Q i b' ->
  forall n b, nth_error (set_nth blk i b') n = Some b -> Q n b.
Proof.
  intros HP HPQ Hb' n b H.
  destruct (nth_set_nth_cases _ _ _ _ _ H) as [[-> ->]|[Hne Hn]].
  - exact Hb'.
  - apply HPQ; [exact Hne|]. apply HP. exact Hn.
Qed.

(** ** [insert] *)

Lemma insert_eq p U B mn mx sm summ blk x :
  insert p (mkV U B mn mx sm summ blk) x =
  _ <- assert ((0 <=? x) && (x <? U)) ;;
  if mn =? -1 then Some (mkV U B x x sm summ blk)
  else
    let '(x, mn) := if x <? mn then (mn, x) else (x, mn) in
    let mx := if mx <? x then x else mx in
    if U <? SMALL then
      Some (mkV U B mn mx (Z.lor sm (Z.shiftl 1 x)) summ blk)
    else
      let i := high p B x in
      let j := low p B x in
      bi <- get blk i ;;
      summ' <- (if min bi =? -1 then
                  match summ with
                  | Some s =>
                      match insert p s i with
                      | Some s' => Some (Some s')
                      | None => None
                      end
                  | None => None
                  end
                else Some summ) ;;
      blk' <- update (fun b => insert p b j) blk i ;;
      Some (mkV U B mn mx sm summ' blk').
Proof. reflexivity. Qed.

(** The fields of a non-empty node after [insert(x)], for [x] not stored:
    the smaller of [x] and [min] is cached, the other one descends. *)
Lemma extremal_insert U0 B0 mn mx sm summ blk mn' mx' sm' summ' blk' S x :
  extremal (mkV U0 B0 mn mx sm summ blk) S ->
  0 <= x < U0 -> ~ S x -> mn <> -1 ->
  mn' = Z.min x mn -> mx' = Z.max mx x ->
  extremal (mkV U0 B0 mn' mx' sm' summ' blk') (add x S).
Proof.
  intros (Hrange & _ & Hnonempty) Hx HnS Hmn -> ->; fields.
  destruct (Hnonempty Hmn) as (Hmin & Hmax & Hb).
  pose proof (Hrange _ Hmin) as Hmnr.
  unfold extremal, add; fields. split; [|split].
  - intros y [-> |Hy]; [exact Hx | apply Hrange; exact Hy].
  - intros E. lia.
  - intros _. split; [|split].
    + destruct (Z.min_spec x mn) as [[_ ->]|[_ ->]]; auto.
    + destruct (Z.max_spec mx x) as [[_ ->]|[_ ->]]; auto.
    + intros y [-> |Hy]; [lia|]. specialize (Hb y Hy). lia.
Qed.

Lemma insert_spec p v S :
  Inv p v S ->
  forall x, 0 <= x < U v -> ~ S x ->
  exists v', insert p v x = Some v' /\ Inv p v' (add x S) /\ U v' = U v.
Proof.
  induction 1 as [v S HU Hex Hbits | v s S HU HB Hs Hlen HUs HUb Hex Hblk IHblk Hsum IHsum];
    intros x Hx HnS.
  - destruct v as [U0 B0 mn mx sm summ blk]; fields.
    pose proof (proj1 HU) as HU0; fields.
    pose proof Hex as (Hrange & Hempty & Hnonempty); fields.
    rewrite insert_eq, assert_true by (apply in_range_true; lia).
    cbn [bind].
    destruct (Z.eqb_spec mn (-1)) as [Hmn|Hmn].
    + (* empty leaf *)
      eexists. split; [reflexivity|]. split; [|reflexivity].
      destruct (Hempty Hmn) as [_ Hnone].
      apply Inv_leaf; fields.
      * exact HU.
      * unfold extremal, add; fields. split; [|split].
        -- intros y [-> |Hy]; [exact Hx | elim (Hnone y Hy)].
        -- intros E. lia.
        -- intros _. split; [auto|]. split; [auto|].
           intros y [-> |Hy]; [lia | elim (Hnone y Hy)].
      * intros i. rewrite Hbits. unfold add. split.
        -- intros [Hi _]. elim (Hnone i Hi).
        -- intros [[-> |Hi] Hne]; [congruence | elim (Hnone i Hi)].
    + (* non-empty leaf *)
      destruct (Hnonempty Hmn) as (Hmin & Hmax & Hb).
      pose proof (Hrange _ Hmin) as Hmnr.
      assert (Hmnmx : mn <= mx) by (specialize (Hb _ Hmin); lia).
      assert (Hxmn : x <> mn) by congruence.
      pose proof (extremal_insert U0 B0 mn mx sm summ blk) as Hext.
      destruct (Z.ltb_spec x mn) as [Hlt|Hge]; cbv beta iota zeta;
        (destruct (Z.ltb_spec U0 SMALL) as [_|HU']; [|lia]);
        (eexists; split; [reflexivity|]; split; [|reflexivity]).
      * (* x becomes the minimum, the old minimum goes to the mask *)
        apply Inv_leaf; fields.
        -- exact HU.
        -- apply Hext; try assumption; [lia|].
           destruct (Z.ltb_spec mx mn); lia.
        -- intros i. rewrite testbit_set by lia.
           rewrite orb_true_iff, Hbits, Z.eqb_eq. unfold add.
           split.
           ++ intros [[Hi Hne]| ->]; split; auto; congruence.
           ++ intros [[-> |Hi] Hne]; [congruence|].
              destruct (Z.eq_dec i mn); auto.
      * (* x goes to the mask *)
        apply Inv_leaf; fields.
        -- exact HU.
        -- apply Hext; try assumption; [lia|].
           destruct (Z.ltb_spec mx x); lia.
        -- intros i. rewrite testbit_set by lia.
           rewrite orb_true_iff, Hbits, Z.eqb_eq. unfold add.
           split.
           ++ intros [[Hi Hne]| ->]; split; auto.
           ++ intros [[-> |Hi] Hne]; auto.
  - destruct v as [U0 B0 mn mx sm summ blk]; fields. subst summ.
    pose proof Hex as (Hrange & Hempty & Hnonempty); fields.
    rewrite insert_eq, assert_true by (apply in_range_true; lia).
    cbn [bind].
    pose proof (W_pos p B0 HB) as HW.
    set (w := W p B0) in *.
    destruct (Z.eqb_spec mn (-1)) as [Hmn|Hmn].
    + (* empty node: only the cached minimum changes *)
      eexists. split; [reflexivity|]. split; [|reflexivity].
      destruct (Hempty Hmn) as [_ Hnone].
      apply Inv_node with s; fields; fold w; try assumption; try reflexivity.
      * unfold extremal, add; fields. split; [|split].
        -- intros y [-> |Hy]; [exact Hx | elim (Hnone y Hy)].
        -- intros E. lia.
        -- intros _. split; [auto|]. split; [auto|].
           intros y [-> |Hy]; [lia | elim (Hnone y Hy)].
      * intros n b Hn. apply (Inv_ext p b _ _ (Hblk n b Hn)).
        intros j. unfold Sblock, add. split.
        -- intros (_ & Hy & _). elim (Hnone _ Hy).
        -- intros (_ & [Hy|Hy] & Hne); [congruence | elim (Hnone _ Hy)].
    + destruct (Hnonempty Hmn) as (Hmin & Hmax & Hb).
      pose proof (Hrange _ Hmin) as Hmnr.
      assert (Hmnmx : mn <= mx) by (specialize (Hb _ Hmin); lia).
      assert (Hxmn : x <> mn) by congruence.
      (* x' descends, mn' is cached *)
      assert (Hswap : exists x' mn',
                 (if x <? mn then (mn, x) else (x, mn)) = (x', mn') /\
                 ((x' = mn /\ mn' = x /\ x < mn) \/ (x' = x /\ mn' = mn /\ mn < x))).
      { destruct (Z.ltb_spec x mn); eexists; eexists; (split; [reflexivity|]); lia. }
      destruct Hswap as (x' & mn' & -> & Hperm). cbv beta iota zeta.
      destruct (Z.ltb_spec U0 SMALL) as [HU'|_]; [lia|].
      assert (Hx' : 0 <= x' < U0) by lia.
      destruct (div_mod_split w x' HW) as (Hi & Hj & Hsplit); [lia|].
      rewrite high_div, low_mod by (assumption || lia).
      fold w. set (i := x' / w) in *. set (j := x' mod w) in *.
      clearbody i j.
      assert (Hilen : 0 <= i < Z.of_nat (length blk)).
      { split; [exact Hi|]. apply (Z.mul_lt_mono_pos_r w); lia. }
      destruct (get_some blk i Hilen) as [bi Hbi].
      rewrite Hbi. cbn [bind].
      pose proof (Inv_get_block p _ _ i bi Hblk Hbi) as Hinv.
      pose proof Hbi as Hbi'. apply get_nth in Hbi'. destruct Hbi' as [_ Hbi'].
      (* the key that descends is not in its block yet *)
      assert (Hfresh : ~ Sblock S mn w i j).
      { unfold Sblock. rewrite <- Hsplit. intros (_ & HS' & Hne').
        destruct Hperm as [(-> & _)|(-> & _)]; auto. }
      (* a stored key other than the old minimum is neither x nor the new minimum *)
      assert (Hold : forall y, S y -> y <> x /\ (y <> mn -> y <> mn')).
      { intros y Hy. assert (y <> x) by congruence. split; [assumption|]. lia. }
      (* the recursive insertion into the block *)
      destruct (IHblk _ _ Hbi' j) as (bi' & Hins & Hinv' & HU').
      { rewrite (HUb _ _ Hbi'). exact Hj. }
      { rewrite Z2Nat.id by exact Hi. exact Hfresh. }
      rewrite Z2Nat.id in Hinv' by exact Hi.
      rewrite (update_spec _ _ _ _ _ Hbi Hins).
      assert (Hbi'ne : min bi' <> -1).
      { apply (Inv_nonempty p _ _ j Hinv'). left. reflexivity. }
      (* the summary *)
      assert (Hsumm : exists s',
                 (if min bi =? -1
                  then match insert p s i with
                       | Some s' => Some (Some s')
                       | None => None
                       end
                  else Some (Some s)) = Some (Some s') /\
                 Inv p s' (Ssum (set_nth blk (Z.to_nat i) bi')) /\ U s' = U s).
      { destruct (Z.eqb_spec (min bi) (-1)) as [Hbe|Hbne].
        - destruct (IHsum i) as (s' & Hs' & Hinvs & HUs'); [lia| |].
          { intros (b & Hb1 & Hb2). congruence. }
          exists s'. rewrite Hs'. split; [reflexivity|]. split; [|exact HUs'].
          apply (Inv_ext p s' _ _ Hinvs). intros k.
          rewrite Ssum_set_nth by exact Hilen. unfold add.
          destruct (Z.eq_dec k i); tauto.
        - exists s. split; [reflexivity|]. split; [|reflexivity].
          apply (Inv_ext p s _ _ Hsum). intros k.
          rewrite Ssum_set_nth by exact Hilen.
          destruct (Z.eq_dec k i) as [-> |Hne]; [|tauto].
          split; [intros _; left; auto|]. intros _. exists bi. auto. }
      destruct Hsumm as (s' & -> & Hinvs & HUs').
      cbn [bind].
      eexists. split; [reflexivity|]. split; [|reflexivity].
      (* how the keys of the new set split *)
      assert (Hnew : forall n k, 0 <= k < w ->
                (add x S (n * w + k) /\ n * w + k <> mn' <->
                 (n = i /\ k = j) \/ (S (n * w + k) /\ n * w + k <> mn))).
      { intros n k Hk. unfold add. split.
        - intros [[E|HS'] Hne'].
          + left. apply (split_eq w n k i j Hk Hj). lia.
          + destruct (Z.eq_dec (n * w + k) mn) as [E|E]; [|auto].
            left. apply (split_eq w n k i j Hk Hj). lia.
        - intros [[-> ->]|[HS' Hne']].
          + rewrite <- Hsplit.
            destruct Hperm as [(-> & -> & Hlt)|(-> & -> & Hlt)];
              (split; [auto | lia]).
          + destruct (Hold _ HS') as [Hx1 Hx2]. auto. }
      apply Inv_node with s'; fields; fold w.
      * exact HU.
      * exact HB.
      * reflexivity.
      * rewrite set_nth_length. exact Hlen.
      * rewrite set_nth_length, HUs'. exact HUs.
      * apply (blocks_set_nth (fun _ b => U b = w) (fun _ b => U b = w)).
        -- exact HUb.
        -- auto.
        -- rewrite HU'. apply (HUb _ _ Hbi').
      * apply (extremal_insert U0 B0 mn mx sm (Some s) blk); try assumption; [lia|].
        destruct (Z.ltb_spec mx x'); lia.
      * apply (blocks_set_nth
                 (fun n b => Inv p b (Sblock S mn w (Z.of_nat n)))
                 (fun n b => Inv p b (Sblock (add x S) mn' w (Z.of_nat n)))).
        -- exact Hblk.
        -- (* the other blocks keep their sets *)
           intros n b Hne Hb0. apply (Inv_ext p b _ _ Hb0).
           intros k. unfold Sblock. split.
           ++ intros (Hk & HS'). split; [exact Hk|].
              apply Hnew; auto.
           ++ intros (Hk & HS'). split; [exact Hk|].
              apply Hnew in HS'; [|exact Hk].
              destruct HS' as [[E _]|HS']; [lia | exact HS'].
        -- (* the changed block *)
           rewrite Z2Nat.id by exact Hi.
           apply (Inv_ext p bi' _ _ Hinv').
           intros k. unfold Sblock at 2. rewrite (and_comm (0 <= k < w)).
           unfold add at 1, Sblock. split.
           ++ intros [-> |(Hk & HS')].
              ** split; [|exact Hj]. apply Hnew; auto.
              ** split; [|exact Hk]. apply Hnew; auto.
           ++ intros (HS' & Hk). apply Hnew in HS'; [|exact Hk].
              destruct HS' as [[_ E]|HS']; auto.
      * exact Hinvs.
Qed.

(** ** The rescan loop of leaf [erase] *)

Lemma for_loop_inv {St : Type} (I : Z -> St -> Prop) body n i st :
  (forall k st, i <= k < i + Z.of_nat n -> I k st -> I (k + 1) (body k st)) ->
  I i st ->
  I (i + Z.of_nat n) (for_loop n i body st).
Proof.
  revert i st. induction n as [|n IH]; intros i st Hstep Hi.
  - simpl. rewrite Z.add_0_r. exact Hi.
  - cbn [for_loop].
    replace (i + Z.of_nat (Datatypes.S n)) with (i + 1 + Z.of_nat n) by lia.
    apply IH.
    + intros k st' Hk. apply Hstep. lia.
    + apply Hstep; [lia | exact Hi].
Qed.

Lemma rescan_step mn mx sm k st :
  0 <= k -> rescanned mn mx sm k st -> rescanned mn mx sm (k + 1) (rescan_body k st).
Proof.
  intros Hk. destruct st as [[m M] s]. unfold rescanned, rescan_body.
  cbv beta iota zeta.
  intros [[Hno E]|[Htop Hcase]].
  - (* no bit met so far *)
    injection E as -> -> ->.
    rewrite bit_testbit by exact Hk.
    destruct (Z.testbit sm k) eqn:Ek; cbv beta iota zeta.
    + destruct (Z.eqb_spec mn (-1)) as [Hmn|Hmn]; cbv beta iota zeta; right.
      * split; [|right; split; [exact Hmn|split; [|reflexivity]]].
        -- split; [exact Ek|]. split; [lia|]. intros i Hi. lia.
        -- split; [exact Ek|]. split; [exact Hk|]. exact Hno.
      * split; [|left; auto].
        split; [exact Ek|]. split; [lia|]. intros i Hi. lia.
    + left. split; [|reflexivity]. intros i Hi.
      destruct (Z.eq_dec i k) as [-> |Hne]; [exact Ek | apply Hno; lia].
  - (* some bit met: the mask differs from sm at most below k *)
    destruct Htop as (HM & HMk & Habove).
    assert (Ebit : bit s k = Z.testbit sm k).
    { rewrite bit_testbit by exact Hk.
      destruct Hcase as [(_ & _ & ->)|(_ & (_ & Hm0 & Hbelow) & ->)]; [reflexivity|].
      rewrite testbit_clear by exact Hm0.
      destruct (Z.eqb_spec k m) as [-> |Hne]; [|apply andb_true_r].
      destruct (Z.lt_total m M) as [Hlt|[->|Hgt]]; try lia.
      rewrite Hbelow in HM by lia. discriminate. }
    assert (Hm : m <> -1).
    { destruct Hcase as [(Hmn & -> & _)|(_ & (_ & Hm0 & _) & _)]; [exact Hmn | lia]. }
    rewrite Ebit. destruct (Z.testbit sm k) eqn:Ek; cbv beta iota zeta.
    + destruct (Z.eqb_spec m (-1)) as [E|_]; [contradiction|].
      cbv beta iota zeta. right. split; [|exact Hcase].
      split; [exact Ek|]. split; [lia|]. intros i Hi. lia.
    + right. split; [|exact Hcase].
      split; [exact HM|]. split; [lia|]. intros i Hi.
      destruct (Z.eq_dec i k) as [-> |Hne]; [exact Ek | apply Habove; lia].
Qed.

Lemma rescan_spec mn mx sm U0 :
  0 <= U0 ->
  rescanned mn mx sm U0 (for_loop (Z.to_nat U0) 0 rescan_body (mn, mx, sm)).
Proof.
  intros HU.
  pose proof (for_loop_inv (fun k st => 0 <= k /\ rescanned mn mx sm k st)
                rescan_body (Z.to_nat U0) 0 (mn, mx, sm)) as H.
  rewrite Z2Nat.id in H by exact HU. apply H.
  - intros k st Hk [Hk0 Hst]. split; [lia|]. apply rescan_step; assumption.
  - split; [lia|]. left. split; [|reflexivity]. intros i Hi. lia.
Qed.

(** ** [erase] *)

Lemma erase_eq p U B mn mx sm summ blk x :
  erase p (mkV U B mn mx sm summ blk) x =
  _ <- assert ((0 <=? x) && (x <? U)) ;;
  if U <? SMALL then
    let mn := if x =? mn then -1 else mn in
    let mx := if x =? mx then mn else mx in
    let sm := Z.land sm (Z.lnot (Z.shiftl 1 x)) in
    let '(mn, mx, sm) := for_loop (Z.to_nat U) 0 rescan_body (mn, mx, sm) in
    Some (mkV U B mn mx sm summ blk)
  else
    r <- (if x =? mn then
            match summ with
            | Some s =>
                let i := min s in
                if i =? -1 then Some None
                else
                  bi <- get blk i ;;
                  let x' := index p B i (min bi) in
                  Some (Some (x', x'))
            | None => None
            end
          else Some (Some (x, mn))) ;;
    match r with
    | None => Some (mkV U B (-1) (-1) sm summ blk)
    | Some (x, mn) =>
        blk' <- update (fun b => erase p b (low p B x)) blk (high p B x) ;;
        bh <- get blk' (high p B x) ;;
        summ' <- (if min bh =? -1 then
                    match summ with
                    | Some s =>
                        match erase p s (high p B x) with
                        | Some s' => Some (Some s')
                        | None => None
                        end
                    | None => None
                    end
                  else Some summ) ;;
        mx' <- (if x =? mx then
                  s <- summ' ;;
                  let i := max s in
                  if i =? -1 then Some mn
                  else
                    bi <- get blk' i ;;
                    Some (index p B i (max bi))
                else Some mx) ;;
        Some (mkV U B mn mx' sm summ' blk')
    end.
Proof. reflexivity. Qed.

Lemma erase_leaf_spec p U0 B0 mn mx sm summ blk S x :
  Inv p (mkV U0 B0 mn mx sm summ blk) S ->
  U0 < SMALL -> S x ->
  exists v', erase p (mkV U0 B0 mn mx sm summ blk) x = Some v' /\
             Inv p v' (remove x S) /\ U v' = U0.
Proof.
  intros HInv HU HSx.
  inversion HInv as [v S0 Hleaf Hex Hbits Ev ES | v s S0 HU' _ _ _ _ _ _ _ _ Ev ES];
    subst v S0; fields; [|lia].
  destruct Hex as (Hrange & Hempty & Hnonempty); fields.
  pose proof (Hrange x HSx) as Hx.
  assert (Hmn : mn <> -1).
  { intros E. apply (proj2 (Hempty E) x HSx). }
  destruct (Hnonempty Hmn) as (Hmin & Hmax & Hb).
  rewrite erase_eq, assert_true by (apply in_range_true; lia).
  cbn [bind].
  destruct (Z.ltb_spec U0 SMALL) as [_|HU']; [|lia].
  cbv zeta.
  set (mn1 := if x =? mn then -1 else mn).
  set (mx1 := if x =? mx then mn1 else mx).
  set (sm1 := Z.land sm (Z.lnot (Z.shiftl 1 x))).
  (* the bits of the mask once x is cleared *)
  assert (Hsm1 : forall i, Z.testbit sm1 i = true <-> S i /\ i <> mn /\ i <> x).
  { intros i. unfold sm1. rewrite testbit_clear by lia.
    rewrite andb_true_iff, negb_true_iff, Z.eqb_neq, Hbits. tauto. }
  pose proof (rescan_spec mn1 mx1 sm1 U0) as Hres.
  destruct (for_loop (Z.to_nat U0) 0 rescan_body (mn1, mx1, sm1)) as [[m M] s].
  eexists. split; [reflexivity|]. split; [|reflexivity].
  unfold rescanned in Hres. cbv beta iota zeta in Hres.
  destruct Hres as [[Hno E]|[(HM & HMk & Habove) Hcase]]; [lia| |].
  - (* nothing is left in the mask *)
    injection E as -> -> ->.
    assert (Honly : forall y, S y -> y = mn \/ y = x).
    { intros y Hy. destruct (Z.eq_dec y mn) as [|Hn1]; [auto|].
      destruct (Z.eq_dec y x) as [|Hn2]; [auto|]. exfalso.
      assert (Hbit : Z.testbit sm1 y = true) by (apply Hsm1; auto).
      rewrite Hno in Hbit by (apply Hrange; exact Hy). discriminate. }
    assert (Hmx1 : mx1 = mn1).
    { unfold mx1. destruct (Z.eqb_spec x mx) as [_|Hne]; [reflexivity|].
      destruct (Honly mx Hmax) as [E|E]; [|congruence].
      unfold mn1. destruct (Z.eqb_spec x mn) as [E'|_]; [|exact E].
      specialize (Hb x HSx). lia. }
    rewrite Hmx1.
    apply Inv_leaf; fields.
    + exact Hleaf.
    + unfold extremal, remove; fields. split; [|split].
      * intros y [_ Hy]. apply Hrange. exact Hy.
      * intros E. split; [exact E|]. intros y [Hne Hy].
        unfold mn1 in E. destruct (Z.eqb_spec x mn) as [Exm|_]; [|contradiction].
        destruct (Honly y Hy); congruence.
      * intros Hne. unfold mn1 in *.
        destruct (Z.eqb_spec x mn) as [Exm|Hxm]; [contradiction|].
        split; [auto|]. split; [auto|]. intros y [Hyx Hy].
        destruct (Honly y Hy); [lia | contradiction].
    + intros i. rewrite Hsm1. unfold remove. split.
      * intros (Hi & Hn1 & Hn2). exfalso. destruct (Honly i Hi); contradiction.
      * intros ((Hn2 & Hi) & Hn3). exfalso.
        destruct (Honly i Hi) as [E|E]; [|contradiction].
        unfold mn1 in Hn3. destruct (Z.eqb_spec x mn); congruence.
  - (* M is the highest bit left *)
    pose proof (proj1 (Hsm1 M) HM) as (HSM & HMmn & HMx).
    assert (Hub : forall y, S y -> y <> mn -> y <> x -> y <= M).
    { intros y Hy Hn1 Hn2.
      destruct (Z.le_gt_cases y M) as [Hle|Hgt]; [exact Hle|].
      assert (Hbit : Z.testbit sm1 y = true) by (apply Hsm1; auto).
      rewrite Habove in Hbit; [discriminate|].
      split; [exact Hgt | apply Hrange; exact Hy]. }
    destruct Hcase as [(Hmn1 & -> & ->)|(Hmn1 & (Hm & Hm0 & Hbelow) & ->)].
    + (* the minimum stays *)
      unfold mn1 in *. destruct (Z.eqb_spec x mn) as [Exm|Hxm]; [contradiction|].
      apply Inv_leaf; fields.
      * exact Hleaf.
      * unfold extremal, remove; fields. split; [|split].
        -- intros y [_ Hy]. apply Hrange. exact Hy.
        -- intros E. contradiction.
        -- intros _. split; [auto|]. split; [auto|]. intros y [Hyx Hy].
           split; [apply Hb; exact Hy|].
           destruct (Z.eq_dec y mn) as [-> |Hn1]; [|apply Hub; assumption].
           specialize (Hb M HSM). lia.
      * intros i. rewrite Hsm1. unfold remove. tauto.
    + (* the lowest bit becomes the minimum *)
      unfold mn1 in *. destruct (Z.eqb_spec x mn) as [Exm|Hxm]; [|contradiction].
      subst x.
      pose proof (proj1 (Hsm1 m) Hm) as (HSm & Hmmn & _).
      assert (Hlb : forall y, S y -> y <> mn -> m <= y).
      { intros y Hy Hn1.
        destruct (Z.le_gt_cases m y) as [Hle|Hgt]; [exact Hle|].
        assert (Hbit : Z.testbit sm1 y = true) by (apply Hsm1; auto).
        rewrite Hbelow in Hbit; [discriminate|].
        split; [apply Hrange; exact Hy | exact Hgt]. }
      apply Inv_leaf; fields.
      * exact Hleaf.
      * unfold extremal, remove; fields. split; [|split].
        -- intros y [_ Hy]. apply Hrange. exact Hy.
        -- intros E. lia.
        -- intros _. split; [auto|]. split; [auto|]. intros y [Hyx Hy].
           split; [apply Hlb | apply Hub]; assumption.
      * intros i. rewrite testbit_clear by exact Hm0.
        rewrite andb_true_iff, negb_true_iff, Z.eqb_neq, Hsm1.
        unfold remove. tauto.
Qed.

Lemma erase_spec p v S :
  Inv p v S ->
  forall x, S x ->
  exists v', erase p v x = Some v' /\ Inv p v' (remove x S) /\ U v' = U v.
Proof.
  induction 1 as [v S HU Hex Hbits | v s S HU HB Hs Hlen HUs HUb Hex Hblk IHblk Hsum IHsum];
    intros x HSx.
  - destruct v as [U0 B0 mn mx sm summ blk]; fields.
    pose proof (proj1 HU) as HU0; fields.
    apply erase_leaf_spec; [apply Inv_leaf; assumption | exact HU0 | assumption].
  - destruct v as [U0 B0 mn mx sm summ blk]; fields. subst summ.
    pose proof Hex as (Hrange & Hempty & Hnonempty); fields.
    pose proof (Hrange x HSx) as Hx.
    assert (Hmn : mn <> -1).
    { intros E. apply (proj2 (Hempty E) x HSx). }
    destruct (Hnonempty Hmn) as (Hmin & Hmax & Hb).
    rewrite erase_eq, assert_true by (apply in_range_true; lia).
    cbn [bind].
    destruct (Z.ltb_spec U0 SMALL) as [HU'|_]; [lia|].
    cbv beta iota.
    pose proof (W_pos p B0 HB) as HW.
    set (w := W p B0) in *.
    assert (Hsplit : forall y, S y -> y <> mn ->
              exists i j, y = i * w + j /\ 0 <= i < Z.of_nat (length blk) /\
                          Sblock S mn w i j).
    { intros y Hy Hne.
      apply (split_member S U0 (Z.of_nat (length blk)) w mn y HW Hrange Hlen Hy Hne). }
    (* first phase: the early return, or the key xe to take out of the
       blocks and the new minimum mn' *)
    match goal with |- exists v', bind ?r _ = Some v' /\ _ =>
      assert (Hphase :
                (x = mn /\ (forall y, S y -> y = mn) /\ r = Some None) \/
                (exists xe mn',
                    r = Some (Some (xe, mn')) /\
                    S xe /\ xe <> mn /\
                    ((x = mn /\ mn' = xe) \/ (xe = x /\ mn' = mn)) /\
                    (forall y, S y -> y <> x -> mn' <= y)))
    end.
    { destruct (Z.eqb_spec x mn) as [Exm|Hxm]; cbv zeta.
      - destruct (Z.eqb_spec (min s) (-1)) as [Hse|Hsne].
        + left. split; [exact Exm|]. split; [|reflexivity].
          intros y Hy. destruct (Z.eq_dec y mn) as [E|Hne]; [exact E|].
          exfalso. destruct (Hsplit y Hy Hne) as (i' & j' & _ & Hi' & Hj').
          apply (Inv_empty p s _ Hsum Hse i').
          apply (Ssum_of_member p _ _ i' j' Hblk Hi' Hj').
        + right.
          destruct (Inv_min p s _ Hsum Hsne) as [(b0 & Hb0 & Hb0ne) Hlow].
          rewrite Hb0. cbn [bind].
          pose proof (Inv_get_block p _ _ _ b0 Hblk Hb0) as Hinv0.
          destruct (Inv_min p b0 _ Hinv0 Hb0ne) as [(Hj0 & HS0 & Hne0) Hlow0].
          rewrite index_mul by assumption. fold w.
          eexists. eexists. split; [reflexivity|].
          split; [exact HS0|]. split; [exact Hne0|]. split; [left; auto|].
          intros y Hy Hne. subst x.
          destruct (Hsplit y Hy Hne) as (i' & j' & -> & Hi' & Hj').
          pose proof (Hlow i' (Ssum_of_member p _ _ i' j' Hblk Hi' Hj')) as Hle.
          destruct (Z.eq_dec (min s) i') as [E|Hne'].
          * rewrite E in *. specialize (Hlow0 j' Hj'). lia.
          * destruct Hj' as (Hj' & _). nia.
      - right. exists x, mn. split; [reflexivity|].
        split; [exact HSx|]. split; [exact Hxm|]. split; [right; auto|].
        intros y Hy _. apply Hb. exact Hy. }
    destruct Hphase as [(Exm & Honly & ->)|(xe & mn' & -> & HSxe & Hxemn & Hperm & Hlow)];
      cbn [bind].
    + (* the node held its minimum only *)
      eexists. split; [reflexivity|]. split; [|reflexivity].
      apply Inv_node with s; fields; fold w; try assumption; try reflexivity.
      * unfold extremal, remove; fields. split; [|split].
        -- intros y [_ Hy]. apply Hrange. exact Hy.
        -- intros _. split; [reflexivity|]. intros y [Hne Hy].
           specialize (Honly y Hy). congruence.
        -- intros E. contradiction.
      * intros n b Hn. apply (Inv_ext p b _ _ (Hblk n b Hn)).
        intros k. unfold Sblock, remove. split.
        -- intros (_ & Hy & Hne). specialize (Honly _ Hy). contradiction.
        -- intros (_ & (Hne & Hy) & _). specialize (Honly _ Hy). congruence.
    + (* xe leaves its block *)
      pose proof (Hrange xe HSxe) as Hxe.
      destruct (div_mod_split w xe HW) as (Hi & Hj & Hxesplit); [lia|].
      rewrite high_div, low_mod by (assumption || lia).
      fold w. set (i := xe / w) in *. set (j := xe mod w) in *.
      clearbody i j.
      assert (Hilen : 0 <= i < Z.of_nat (length blk)).
      { split; [exact Hi|]. apply (Z.mul_lt_mono_pos_r w); lia. }
      destruct (get_some blk i Hilen) as [bi Hbi].
      pose proof (Inv_get_block p _ _ i bi Hblk Hbi) as Hinv.
      pose proof Hbi as Hbi'. apply get_nth in Hbi'. destruct Hbi' as [_ Hbi'].
      assert (Hmem : Sblock S mn w i j).
      { unfold Sblock. rewrite <- Hxesplit. auto. }
      destruct (IHblk _ _ Hbi' j) as (bi' & Hers & Hinv' & HU').
      { rewrite Z2Nat.id by exact Hi. exact Hmem. }
      rewrite Z2Nat.id in Hinv' by exact Hi.
      rewrite (update_spec _ _ _ _ _ Hbi Hers). cbn [bind].
      set (blk' := set_nth blk (Z.to_nat i) bi') in *.
      assert (Hget' : get blk' i = Some bi').
      { unfold blk'. rewrite get_set_nth by exact Hilen.
        rewrite Z.eqb_refl. reflexivity. }
      assert (Hlen' : length blk' = length blk) by apply set_nth_length.
      rewrite Hget'. cbn [bind].
      (* the summary *)
      match goal with |- exists v', bind ?r _ = Some v' /\ _ =>
        assert (Hsumm : exists s',
                   r = Some (Some s') /\ Inv p s' (Ssum blk') /\ U s' = U s)
      end.
      { assert (Hsi : Ssum blk i).
        { exists bi. split; [exact Hbi|]. apply (Inv_nonempty p _ _ j Hinv Hmem). }
        destruct (Z.eqb_spec (min bi') (-1)) as [Hbe|Hbne].
        - destruct (IHsum i Hsi) as (s' & Hs' & Hinvs & HUs').
          exists s'. rewrite Hs'. split; [reflexivity|]. split; [|exact HUs'].
          apply (Inv_ext p s' _ _ Hinvs). intros k. unfold blk'.
          rewrite Ssum_set_nth by exact Hilen. unfold remove. tauto.
        - exists s. split; [reflexivity|]. split; [|reflexivity].
          apply (Inv_ext p s _ _ Hsum). intros k. unfold blk'.
          rewrite Ssum_set_nth by exact Hilen.
          destruct (Z.eq_dec k i) as [-> |Hne]; tauto. }
      destruct Hsumm as (s' & -> & Hinvs & HUs').
      cbn [bind].
      (* how the keys of the new set split *)
      assert (Hnew : forall n k, 0 <= k < w ->
                (remove x S (n * w + k) /\ n * w + k <> mn' <->
                 (S (n * w + k) /\ n * w + k <> mn) /\ ~ (n = i /\ k = j))).
      { intros n k Hk. unfold remove.
        assert (Hxe' : n * w + k = xe <-> n = i /\ k = j).
        { split.
          - intros E. apply (split_eq w n k i j Hk Hj). lia.
          - intros [-> ->]. lia. }
        rewrite <- Hxe'.
        destruct Hperm as [[-> ->]|[-> ->]]; tauto. }
      assert (Hblk' : forall n b, nth_error blk' n = Some b ->
                Inv p b (Sblock (remove x S) mn' w (Z.of_nat n))).
      { apply (blocks_set_nth
                 (fun n b => Inv p b (Sblock S mn w (Z.of_nat n)))
                 (fun n b => Inv p b (Sblock (remove x S) mn' w (Z.of_nat n)))).
        - exact Hblk.
        - intros n b Hne Hb0. apply (Inv_ext p b _ _ Hb0).
          intros k. unfold Sblock. split.
          + intros (Hk & HS'). split; [exact Hk|].
            apply Hnew; [exact Hk|]. split; [exact HS'|]. lia.
          + intros (Hk & HS'). split; [exact Hk|].
            apply Hnew in HS'; [|exact Hk]. apply HS'.
        - rewrite Z2Nat.id by exact Hi.
          apply (Inv_ext p bi' _ _ Hinv').
          intros k. unfold Sblock at 2. rewrite (and_comm (0 <= k < w)).
          unfold remove at 1, Sblock. split.
          + intros (Hkj & Hk & HS'). split; [|exact Hk].
            apply Hnew; [exact Hk|]. split; [exact HS'|]. tauto.
          + intros (HS' & Hk). apply Hnew in HS'; [|exact Hk].
            destruct HS' as [HS' Hne]. split; [|split; [exact Hk | exact HS']].
            intros ->. apply Hne. auto. }
      assert (HSmn' : remove x S mn').
      { unfold remove. destruct Hperm as [[-> ->]|[-> ->]]; auto. }
      assert (Hrange' : forall y, remove x S y -> 0 <= y < U0).
      { intros y [_ Hy]. apply Hrange. exact Hy. }
      assert (Hlow' : forall y, remove x S y -> mn' <= y).
      { intros y [Hne Hy]. apply Hlow; assumption. }
      assert (Hsplit' : forall y, remove x S y -> y <> mn' ->
                exists i' j', y = i' * w + j' /\ Ssum blk' i' /\
                              Sblock (remove x S) mn' w i' j').
      { intros y Hy Hne.
        destruct (split_member (remove x S) U0 (Z.of_nat (length blk)) w mn' y
                    HW Hrange' Hlen Hy Hne) as (i' & j' & Hy' & Hi' & Hj').
        exists i', j'. split; [exact Hy'|]. split; [|exact Hj'].
        apply (Ssum_of_member p blk' _ i' j' Hblk'); [|exact Hj'].
        rewrite Hlen'. exact Hi'. }
      (* the new maximum *)
      match goal with |- exists v', bind ?r _ = Some v' /\ _ =>
        assert (Hmax' : exists mx',
                   r = Some mx' /\
                   remove x S mx' /\ forall y, remove x S y -> y <= mx')
      end.
      { destruct (Z.eqb_spec xe mx) as [Exe|Hxemx]; cbn [bind]; cbv zeta.
        - destruct (Z.eqb_spec (max s') (-1)) as [Hse|Hsne].
          + exists mn'. split; [reflexivity|]. split; [exact HSmn'|].
            intros y Hy. destruct (Z.eq_dec y mn') as [-> |Hne]; [lia|].
            exfalso. destruct (Hsplit' y Hy Hne) as (i' & j' & _ & Hi' & _).
            apply (Inv_empty p s' _ Hinvs (Inv_max_empty p s' _ Hinvs Hse) i' Hi').
          + assert (Hsmin : min s' <> -1).
            { intros E. apply Hsne. apply (Inv_empty_max p s' _ Hinvs E). }
            destruct (Inv_max p s' _ Hinvs Hsmin) as [(b1 & Hb1 & Hb1ne) Hup].
            rewrite Hb1. cbn [bind].
            pose proof (Inv_get_block p _ _ _ b1 Hblk' Hb1) as Hinv1.
            destruct (Inv_max p b1 _ Hinv1 Hb1ne) as [(Hj1 & HS1 & Hne1) Hup1].
            rewrite index_mul by assumption. fold w.
            eexists. split; [reflexivity|]. split; [exact HS1|].
            intros y Hy. destruct (Z.eq_dec y mn') as [-> |Hne].
            * apply Hlow'. exact HS1.
            * destruct (Hsplit' y Hy Hne) as (i' & j' & -> & Hi' & Hj').
              pose proof (Hup i' Hi') as Hle.
              destruct (Z.eq_dec (max s') i') as [E|Hne'].
              -- rewrite E in *. specialize (Hup1 j' Hj'). lia.
              -- destruct Hj' as (Hj' & _). nia.
        - exists mx. split; [reflexivity|]. split.
          + split; [|exact Hmax]. specialize (Hb xe HSxe).
            destruct Hperm as [[-> ->]|[-> ->]]; lia.
          + intros y [_ Hy]. apply Hb. exact Hy. }
      destruct Hmax' as (mx' & -> & HSmx' & Hup').
      cbn [bind].
      eexists. split; [reflexivity|]. split; [|reflexivity].
      apply Inv_node with s'; fields; fold w; fold blk'.
      * exact HU.
      * exact HB.
      * reflexivity.
      * rewrite Hlen'. exact Hlen.
      * rewrite Hlen', HUs'. exact HUs.
      * apply (blocks_set_nth (fun _ b => U b = w) (fun _ b => U b = w)).
        -- exact HUb.
        -- auto.
        -- rewrite HU'. apply (HUb _ _ Hbi').
      * unfold extremal; fields. split; [exact Hrange'|]. split.
        -- intros E. apply Hrange' in HSmn'. lia.
        -- intros _. split; [exact HSmn'|]. split; [exact HSmx'|]. auto.
      * exact Hblk'.
      * exact Hinvs.
Qed.

(** ** [erase] of a key that is not stored *)



(** ** Construction *)

Lemma extremal_none U0 B0 sm summ blk :
  extremal (mkV U0 B0 (-1) (-1) sm summ blk) none.
Proof.
  unfold extremal, none; fields. split; [|split].
  - intros x [].
  - intros _. split; [reflexivity|]. intros x [].
  - intros E. lia.
Qed.

Lemma Inv_new_leaf p U0 B0 :
  U0 < SMALL -> Inv p (mkV U0 B0 (-1) (-1) 0 None []) none.
Proof.
  intros HU. apply Inv_leaf.
  - repeat split. exact HU.
  - apply extremal_none.
  - intros i. rewrite Z.bits_0. unfold none. split; [discriminate | tauto].
Qed.

Lemma nth_error_repeat (b : V) n i c :
  nth_error (repeat b n) i = Some c -> c = b.
Proof.
  intros H. apply nth_error_In in H. apply repeat_spec in H. exact H.
Qed.

(** A fresh internal node: [n] copies of an empty block and an empty
    summary over [n] indices. *)
Lemma Inv_new_node p U0 B0 s b n :
  SMALL <= U0 -> split_ok p B0 ->
  U0 <= Z.of_nat n * W p B0 ->
  Inv p s none -> U s = Z.of_nat n ->
  Inv p b none -> U b = W p B0 -> min b = -1 ->
  Inv p (mkV U0 B0 (-1) (-1) 0 (Some s) (repeat b n)) none.
Proof.
  intros HU HB Hlen Hs HUs Hb HUb Hmin.
  apply Inv_node with s; fields.
  - exact HU.
  - exact HB.
  - reflexivity.
  - rewrite repeat_length. exact Hlen.
  - rewrite repeat_length. exact HUs.
  - intros i c Hc. apply nth_error_repeat in Hc. subst c. exact HUb.
  - apply extremal_none.
  - intros i c Hc. apply nth_error_repeat in Hc. subst c.
    apply (Inv_ext p b _ _ Hb). intros j. unfold Sblock, none. tauto.
  - apply (Inv_ext p s _ _ Hs). intros i. unfold Ssum, none. split; [tauto|].
    intros (c & Hc & Hne). apply get_nth in Hc. destruct Hc as [_ Hc].
    apply nth_error_repeat in Hc. subst c. contradiction.
Qed.

Lemma build_pow2_min fuel bits : min (build_pow2 fuel bits) = -1.
Proof.
  destruct fuel; simpl; destruct (SMALL <=? Z.shiftl 1 bits); reflexivity.
Qed.

Lemma build_pow2_U fuel bits : U (build_pow2 fuel bits) = Z.shiftl 1 bits.
Proof.
  destruct fuel; simpl; destruct (SMALL <=? Z.shiftl 1 bits); reflexivity.
Qed.

(** The two halves of a bit width of an internal node. *)
Lemma halves bits :
  SMALL <= Z.shiftl 1 bits -> 0 <= bits ->
  let B := Z.shiftr bits 1 in
  let B2 := Z.shiftr (bits + 1) 1 in
  0 <= B < bits /\ 0 <= B2 < bits /\ B2 + B = bits.
Proof.
  intros HU Hbits. cbv zeta.
  rewrite !Z.shiftr_div_pow2 by lia. change (2 ^ 1) with 2.
  assert (5 <= bits).
  { rewrite Z.shiftl_1_l in HU. unfold SMALL in HU.
    destruct (Z.lt_ge_cases bits 5) as [Hlt|Hge]; [|exact Hge].
    assert (2 ^ bits < 2 ^ 5) by (apply Z.pow_lt_mono_r; lia).
    change (2 ^ 5) with 32 in *. lia. }
  pose proof (Z.div_mod bits 2). pose proof (Z.mod_pos_bound bits 2).
  pose proof (Z.div_mod (bits + 1) 2). pose proof (Z.mod_pos_bound (bits + 1) 2).
  lia.
Qed.

Lemma build_pow2_Inv fuel :
  forall bits, 0 <= bits <= Z.of_nat fuel ->
  Inv Pow2 (build_pow2 fuel bits) none.
Proof.
  induction fuel as [|fuel IH]; intros bits Hbits.
  - assert (bits = 0) by lia. subst bits. apply Inv_new_leaf. reflexivity.
  - cbn [build_pow2]. cbv zeta.
    destruct (Z.leb_spec SMALL (Z.shiftl 1 bits)) as [HU|HU].
    + destruct (halves bits HU) as (HB & HB2 & Hsum); [lia|].
      apply Inv_new_node.
      * exact HU.
      * simpl. lia.
      * rewrite Z2Nat.id by (rewrite Z.shiftl_1_l; apply Z.pow_nonneg; lia).
        rewrite !Z.shiftl_1_l. simpl W.
        rewrite <- Z.pow_add_r by lia. rewrite Hsum. lia.
      * apply IH. lia.
      * rewrite build_pow2_U. rewrite Z2Nat.id; [reflexivity|].
        rewrite Z.shiftl_1_l. apply Z.pow_nonneg. lia.
      * apply IH. lia.
      * rewrite build_pow2_U. simpl W. apply Z.shiftl_1_l.
      * apply build_pow2_min.
    + apply Inv_new_leaf. exact HU.
Qed.

(** More fuel than the bit width changes nothing. *)
Lemma build_pow2_fuel f1 :
  forall f2 bits, 0 <= bits <= Z.of_nat f1 -> 0 <= bits <= Z.of_nat f2 ->
  build_pow2 f1 bits = build_pow2 f2 bits.
Proof.
  induction f1 as [|f1 IH]; intros f2 bits H1 H2.
  - assert (bits = 0) by lia. subst bits. destruct f2; reflexivity.
  - destruct f2 as [|f2].
    + assert (bits = 0) by lia. subst bits. reflexivity.
    + cbn [build_pow2]. cbv zeta.
      destruct (Z.leb_spec SMALL (Z.shiftl 1 bits)) as [HU|HU]; [|reflexivity].
      destruct (halves bits HU) as (HB & HB2 & Hsum); [lia|].
      rewrite (IH f2 (Z.shiftr (bits + 1) 1)) by lia.
      rewrite (IH f2 (Z.shiftr bits 1)) by lia.
      reflexivity.
Qed.

(** [V::V(int bits)] as the source writes it. *)
Lemma V_new_pow2_eq bits :
  0 <= bits ->
  V_new Pow2 bits =
  let U := Z.shiftl 1 bits in
  let B := Z.shiftr bits 1 in
  if SMALL <=? U then
    let B2 := Z.shiftr (bits + 1) 1 in
    mkV U B (-1) (-1) 0 (Some (V_new Pow2 B2))
        (repeat (V_new Pow2 B) (Z.to_nat (Z.shiftl 1 B2)))
  else mkV U B (-1) (-1) 0 None [].
Proof.
  intros Hbits. unfold V_new. cbv zeta.
  destruct (Z.leb_spec SMALL (Z.shiftl 1 bits)) as [HU|HU].
  - destruct (halves bits HU Hbits) as (HB & HB2 & Hsum).
    destruct (Z.to_nat bits) as [|f] eqn:Ef; [lia|].
    cbn [build_pow2]. cbv zeta.
    destruct (Z.leb_spec SMALL (Z.shiftl 1 bits)) as [_|HU']; [|lia].
    rewrite (build_pow2_fuel f (Z.to_nat (Z.shiftr (bits + 1) 1))) by lia.
    rewrite (build_pow2_fuel f (Z.to_nat (Z.shiftr bits 1))) by lia.
    reflexivity.
  - destruct (Z.to_nat bits); cbn [build_pow2]; cbv zeta;
      destruct (Z.leb_spec SMALL (Z.shiftl 1 bits)); try lia; reflexivity.
Qed.

(** The [while] loop of the size constructor stops at the least block
    count, from [blocks] on, that covers the universe. *)
Lemma count_blocks_spec fuel :
  forall blocks B U,
  0 < B -> U <= (blocks + Z.of_nat fuel) * B ->
  let r := count_blocks fuel blocks B U in
  blocks <= r /\ U <= r * B /\ (r = blocks \/ (r - 1) * B < U).
Proof.
  induction fuel as [|fuel IH]; intros blocks B U HB Hfuel; cbn [count_blocks].
  - cbv zeta. split; [lia|]. split; [lia|]. left. reflexivity.
  - destruct (Z.ltb_spec (blocks * B) U) as [Hlt|Hge].
    + destruct (IH (blocks + 1) B U HB) as (H1 & H2 & H3); [lia|].
      cbv zeta. split; [lia|]. split; [exact H2|]. right.
      destruct H3 as [-> |H3]; [|exact H3].
      replace (blocks + 1 - 1) with blocks by lia. exact Hlt.
    + cbv zeta. split; [lia|]. split; [lia|]. left. reflexivity.
Qed.

(** The split width and the block count of an internal node. *)
Lemma sqrt_split size :
  SMALL <= size ->
  let B := Z.sqrt size in
  let blocks := count_blocks (Z.to_nat size) B B size in
  5 <= B < size /\ size <= blocks * B /\ 0 <= blocks < size.
Proof.
  intros HU. unfold SMALL in HU. cbv zeta.
  assert (HB : 5 <= Z.sqrt size).
  { change 5 with (Z.sqrt 25). apply Z.sqrt_le_mono. lia. }
  assert (HB' : Z.sqrt size < size) by (apply Z.sqrt_lt_lin; lia).
  destruct (count_blocks_spec (Z.to_nat size) (Z.sqrt size) (Z.sqrt size) size)
    as (H1 & H2 & H3); [lia | nia |].
  split; [lia|]. split; [exact H2|]. split; [lia|].
  destruct H3 as [-> |H3]; [exact HB'|]. nia.
Qed.

Lemma build_sqrt_min fuel size : min (build_sqrt fuel size) = -1.
Proof.
  destruct fuel; simpl; destruct (SMALL <=? size); reflexivity.
Qed.

Lemma build_sqrt_U fuel size : U (build_sqrt fuel size) = size.
Proof.
  destruct fuel; simpl; destruct (SMALL <=? size); reflexivity.
Qed.

Lemma build_sqrt_Inv fuel :
  forall size, size <= Z.of_nat fuel ->
  Inv Sqrt (build_sqrt fuel size) none.
Proof.
  induction fuel as [|fuel IH]; intros size Hsize.
  - cbn [build_sqrt]. cbv zeta.
    destruct (Z.leb_spec SMALL size) as [HU|HU]; [unfold SMALL in HU; lia|].
    apply Inv_new_leaf. exact HU.
  - cbn [build_sqrt]. cbv zeta.
    destruct (Z.leb_spec SMALL size) as [HU|HU].
    + destruct (sqrt_split size HU) as (HB & Hcover & Hblocks).
      apply Inv_new_node.
      * exact HU.
      * simpl. lia.
      * rewrite Z2Nat.id by lia. exact Hcover.
      * apply IH. lia.
      * rewrite build_sqrt_U. rewrite Z2Nat.id by lia. reflexivity.
      * apply IH. lia.
      * apply build_sqrt_U.
      * apply build_sqrt_min.
    + apply Inv_new_leaf. exact HU.
Qed.



Lemma V_new_U p arg : arg_ok p arg -> U (V_new p arg) = universe p arg.
Proof.
  destruct p; simpl; intros H.
  - rewrite build_pow2_U. apply Z.shiftl_1_l.
  - apply build_sqrt_U.
Qed.

Lemma V_new_Inv p arg : arg_ok p arg -> Inv p (V_new p arg) none.
Proof.
  destruct p; simpl; intros H.
  - apply build_pow2_Inv. lia.
  - apply build_sqrt_Inv. lia.
Qed.

(** ** Sequences of operations *)

Lemma memb_In x ref : memb x ref = true <-> In x ref.
Proof.
  unfold memb. rewrite existsb_exists. split.
  - intros (y & Hy & E). apply Z.eqb_eq in E. subst y. exact Hy.
  - intros H. exists x. split; [exact H | apply Z.eqb_refl].
Qed.

Lemma memb_false x ref : memb x ref = false <-> ~ In x ref.
Proof.
  rewrite <- memb_In. destruct (memb x ref); split; congruence.
Qed.

Lemma apply_op_spec p v ref o :
  Inv p v (members ref) -> pre_op (U v) ref o = true ->
  exists v', apply_op p v o = Some v' /\
             Inv p v' (members (ref_op ref o)) /\ U v' = U v.
Proof.
  intros HInv Hpre. destruct o as [x|x]; simpl in *.
  - apply andb_true_iff in Hpre. destruct Hpre as [Hr Hn].
    apply andb_true_iff in Hr. destruct Hr as [H0 HU].
    apply Z.leb_le in H0. apply Z.ltb_lt in HU.
    apply negb_true_iff, memb_false in Hn.
    destruct (insert_spec p v _ HInv x) as (v' & Hv' & HInv' & HU'); [lia|exact Hn|].
    exists v'. split; [exact Hv'|]. split; [|exact HU'].
    apply (Inv_ext p v' _ _ HInv'). intros y. unfold add, members. simpl.
    split; intros [E|E]; auto.
  - apply andb_true_iff in Hpre. destruct Hpre as [_ Hn].
    apply memb_In in Hn.
    destruct (erase_spec p v _ HInv x Hn) as (v' & Hv' & HInv' & HU').
    exists v'. split; [exact Hv'|]. split; [|exact HU'].
    apply (Inv_ext p v' _ _ HInv'). intros y. unfold remove, members.
    rewrite filter_In, negb_true_iff, Z.eqb_neq. tauto.
Qed.

Lemma run_spec p ops :
  forall v ref,
  Inv p v (members ref) -> valid_ops (U v) ref ops = true ->
  exists v', run p v ops = Some v' /\
             Inv p v' (members (ref_run ref ops)) /\ U v' = U v.
Proof.
  induction ops as [|o ops IH]; intros v ref HInv Hvalid.
  - exists v. auto.
  - cbn [valid_ops] in Hvalid. apply andb_true_iff in Hvalid.
    destruct Hvalid as [Hpre Hvalid].
    destruct (apply_op_spec p v ref o HInv Hpre) as (v1 & Hv1 & HInv1 & HU1).
    rewrite <- HU1 in Hvalid.
    destruct (IH v1 _ HInv1 Hvalid) as (v' & Hv' & HInv' & HU').
    exists v'. cbn [run]. rewrite Hv1. cbn [bind].
    split; [exact Hv'|]. split; [exact HInv' | congruence].
Qed.

(** Every state reached from a fresh structure by a sequence of
    operations that respects the preconditions satisfies the invariant
    for the reference set. *)
Lemma run_new p arg ops :
  arg_ok p arg -> valid_ops (universe p arg) [] ops = true ->
  exists v, run p (V_new p arg) ops = Some v /\
            Inv p v (members (ref_run [] ops)) /\ U v = universe p arg.
Proof.
  intros Harg Hvalid.
  rewrite <- (V_new_U p arg Harg) in *.
  apply run_spec; [|exact Hvalid].
  apply (Inv_ext p _ _ _ (V_new_Inv p arg Harg)).
  intros x. unfold none, members. simpl. tauto.
Qed.

(** ** The nodes of a tree *)





(** ** [insert] of the cached minimum *)



(** ** The fields stay in the range of [int] *)

(** Under the invariant [min] and [max] are both [-1] or keys of the
    universe, and the mask of a leaf fits the bits of its universe. *)
Lemma Inv_fields p v S :
  Inv p v S ->
  ((min v = -1 /\ max v = -1) \/ (0 <= min v /\ min v <= max v /\ max v < U v)) /\
  (U v < SMALL -> 0 <= small v < 2 ^ Z.max 0 (U v)).
Proof.
  intros HInv. split.
  - pose proof (Inv_extremal p v S HInv) as (Hrange & Hempty & Hnonempty).
    destruct (Z.eq_dec (min v) (-1)) as [E|E].
    + left. split; [exact E | apply Hempty; exact E].
    + right. destruct (Hnonempty E) as (Hmin & Hmax & Hb).
      pose proof (Hrange _ Hmin). pose proof (Hrange _ Hmax).
      pose proof (Hb _ Hmin). lia.
  - intros HU.
    destruct HInv as [v S _ Hex Hbits | v s S Hge _ _ _ _ _ _ _ _]; [|lia].
    destruct Hex as (Hrange & _).
    assert (Hin : forall i, Z.testbit (small v) i = true -> 0 <= i < U v).
    { intros i Hi. apply Hbits in Hi. apply Hrange. apply Hi. }
    assert (Hnn : 0 <= small v).
    { destruct (Z.lt_ge_cases (small v) 0) as [Hneg|Hge]; [|exact Hge].
      set (m := Z.max (U v) (Z.log2 (Z.abs (small v)) + 1)).
      assert (Hbit : Z.testbit (small v) m = true).
      { apply Z.bits_iff_neg; [unfold m; lia | exact Hneg]. }
      apply Hin in Hbit. unfold m in Hbit. lia. }
    split; [exact Hnn|].
    destruct (Z.eq_dec (small v) 0) as [E|E].
    + rewrite E. apply Z.pow_pos_nonneg; lia.
    + assert (Hlog : Z.testbit (small v) (Z.log2 (small v)) = true)
        by (apply Z.bit_log2; lia).
      apply Hin in Hlog.
      apply Z.log2_lt_pow2; lia.
Qed.

(** ** The scenario of the specification on a universe of 8 keys *)

Example scenario_insert_3 :
  exists v, run Pow2 (V_new Pow2 3) [Insert 3] = Some v /\
            contains Pow2 v 3 = Some true /\
            successor Pow2 v 0 = Some 3 /\
            successor Pow2 v 3 = Some (-1).
Proof. eexists. repeat split. Qed.

Example scenario_insert_5 :
  exists v, run Pow2 (V_new Pow2 3) [Insert 3; Insert 5] = Some v /\
            successor Pow2 v 3 = Some 5.
Proof. eexists. repeat split. Qed.

Example scenario_erase_3 :
  exists v, run Pow2 (V_new Pow2 3) [Insert 3; Insert 5; Erase 3] = Some v /\
            contains Pow2 v 3 = Some false /\
            successor Pow2 v 0 = Some 5.
Proof. eexists. repeat split. Qed.

(** The same scenario on the size constructor with 40 keys, which has
    blocks and a summary. *)
Example scenario_sqrt_40 :
  exists v, run Sqrt (V_new Sqrt 40) [Insert 3; Insert 39; Insert 20; Erase 3] = Some v /\
            min v = 20 /\ max v = 39 /\
            successor Sqrt v 0 = Some 20 /\
            successor Sqrt v 20 = Some 39 /\
            successor Sqrt v 39 = Some (-1).
Proof. eexists. repeat split. Qed.

(** After a second [insert] of the minimum of an internal node, [erase]
    of that key leaves it stored. *)
Example duplicate_min_then_erase :
  exists v, run Pow2 (V_new Pow2 6) [Insert 20; Insert 50; Insert 20; Erase 20] = Some v /\
            contains Pow2 v 20 = Some true.
Proof. eexists. repeat split. Qed.

(** * The claims of the specification *)




















(** C8: recombining the two parts of a key gives the key back, for both
    decomposition policies: [index(high(x), low(x)) == x]. *)
Theorem C8_index_high_low (p : policy) (B x : Z) :
  split_ok p B -> 0 <= x ->
  index p B (high p B x) (low p B x) = x.
Proof.
  intros HB Hx.
  pose proof (W_pos p B HB) as HW.
  destruct (div_mod_split (W p B) x HW Hx) as (Hi & Hj & Hsplit).
  rewrite high_div, low_mod by assumption.
  rewrite index_mul by assumption.
  symmetry. exact Hsplit.
Qed.

Lemma C8_witness :
  index Pow2 3 (high Pow2 3 45) (low Pow2 3 45) = 45 /\
  index Sqrt 7 (high Sqrt 7 45) (low Sqrt 7 45) = 45.
Proof.
  split.
  - apply (C8_index_high_low Pow2 3 45); simpl; lia.
  - apply (C8_index_high_low Sqrt 7 45); simpl; lia.
Defined.





(** * Further properties *)

(** ** [erase] on any key of the universe *)


(** ** [successor] as a membership test *)


(** ** Vectors of the harness *)

Lemma vget_nth a i x :
  vget a i = Some x <-> 0 <= i /\ nth_error a (Z.to_nat i) = Some x.
Proof.
  unfold vget. destruct (Z.ltb_spec i 0); split; intros H0.
  - discriminate.
  - lia.
  - split; [lia | exact H0].
  - apply H0.
Qed.


Lemma vget_range a i x : vget a i = Some x -> 0 <= i < Z.of_nat (length a).
Proof.
  intros H. apply vget_nth in H. destruct H as [Hi H].
  assert (Z.to_nat i < length a)%nat; [|lia].
  apply nth_error_Some. rewrite H. discriminate.
Qed.





(** ** [getSuccessor] *)



(** ** The correctness harness *)
















(** ** The performance harness *)






(** ** The shape of the tree never changes *)














(** ** The state is determined by the set of keys *)





Lemma valid_ops_app size ops1 :
  forall ref ops2,
  valid_ops size ref (ops1 ++ ops2) =
  valid_ops size ref ops1 && valid_ops size (ref_run ref ops1) ops2.
Proof.
  induction ops1 as [|o ops1 IH]; intros ref ops2; simpl.
  - reflexivity.
  - rewrite IH, andb_assoc. reflexivity.
Qed.

Lemma ref_run_app ref ops1 ops2 :
  ref_run ref (ops1 ++ ops2) = ref_run (ref_run ref ops1) ops2.
Proof. unfold ref_run. apply fold_left_app. Qed.

(** ** [insert] and [erase] undo each other *)



(** ** The block count of the size constructor *)


(** ** [erase] after a second [insert] of the minimum *)



(** At a leaf the second [insert] of the minimum only sets its bit in the
    mask, which the next [erase] of the key clears again: the key is
    removed as if it had been inserted once. *)
Lemma insert_min_erase_leaf p v S :
  Inv p v S -> U v < SMALL -> min v <> -1 ->
  exists v1, insert p v (min v) = Some v1 /\
             erase p v1 (min v) = erase p v (min v).
Proof.
  intros HInv HUlt Hmn.
  pose proof (Inv_extremal p v S HInv) as (Hrange & _ & Hnonempty).
  destruct (Hnonempty Hmn) as (Hmin & Hmax & Hb).
  pose proof (Hrange _ Hmin) as Hmnr. pose proof (Hb _ Hmin) as Hmnmx.
  destruct v as [U0 B0 mn mx sm summ blk]; fields.
  eexists. split.
  { rewrite insert_eq, assert_true by (apply in_range_true; lia).
    cbn [bind].
    destruct (Z.eqb_spec mn (-1)) as [E|_]; [contradiction|].
    rewrite Z.ltb_irrefl. cbv beta iota zeta.
    destruct (Z.ltb_spec mx mn) as [Hlt|_]; [lia|].
    destruct (Z.ltb_spec U0 SMALL) as [_|HU']; [|lia].
    reflexivity. }
  rewrite !erase_eq.
  destruct (Z.ltb_spec U0 SMALL) as [_|HU']; [|lia].
  assert (E : Z.land (Z.lor sm (Z.shiftl 1 mn)) (Z.lnot (Z.shiftl 1 mn)) =
              Z.land sm (Z.lnot (Z.shiftl 1 mn))).
  { apply Z.bits_inj'. intros n _.
    rewrite !testbit_clear, testbit_set by lia.
    destruct (Z.testbit sm n), (n =? mn); reflexivity. }
  cbv zeta. rewrite E. reflexivity.
Qed.

(** ** The cached minimum and the summary of an internal node *)





(** * Properties of the harness and of composed operations *)























(** X12: in every reachable non-empty state with a leaf root, a second
    [insert] of the minimum followed by [erase] of that key gives the
    same structure as [erase] alone: the key is removed. *)
Theorem X12_duplicate_min_leaf (p : policy) (arg : Z) (ops : list op) :
  arg_ok p arg ->
  valid_ops (universe p arg) [] ops = true ->
  universe p arg < SMALL ->
  ref_run [] ops <> [] ->
  exists v v1 v2, run p (V_new p arg) ops = Some v /\
    insert p v (min v) = Some v1 /\
    erase p v1 (min v) = Some v2 /\
    erase p v (min v) = Some v2 /\
    forall y, 0 <= y < universe p arg ->
    exists r, successor p v2 y = Some r /\
              is_successor (remove (min v) (members (ref_run [] ops))) y r.
Proof.
  intros Harg Hvalid Hlt Hne.
  destruct (run_new p arg ops Harg Hvalid) as (v & Hrun & HInv & HU).
  assert (Hmin : min v <> -1).
  { destruct (ref_run [] ops) as [|y l] eqn:E; [contradiction|].
    apply (Inv_nonempty p v _ y HInv). left. reflexivity. }
  destruct (insert_min_erase_leaf p v _ HInv) as (v1 & Hins & Hers); [lia|exact Hmin|].
  destruct (erase_spec p v _ HInv (min v)) as (v2 & Hers2 & HInv2 & HU2).
  { apply (Inv_min p v _ HInv Hmin). }
  exists v, v1, v2. split; [exact Hrun|]. split; [exact Hins|].
  split; [congruence|]. split; [exact Hers2|].
  intros y Hy. apply (successor_spec p v2 _ HInv2). lia.
Qed.

Lemma X12_witness :
  exists v v1 v2, run Pow2 (V_new Pow2 3) [Insert 3; Insert 5] = Some v /\
    insert Pow2 v (min v) = Some v1 /\
    erase Pow2 v1 (min v) = Some v2 /\
    erase Pow2 v (min v) = Some v2 /\
    forall y, 0 <= y < universe Pow2 3 ->
    exists r, successor Pow2 v2 y = Some r /\
              is_successor (remove (min v) (members (ref_run [] [Insert 3; Insert 5]))) y r.
Proof.
  apply (X12_duplicate_min_leaf Pow2 3 [Insert 3; Insert 5]);
    [simpl; lia | reflexivity | unfold SMALL; simpl; lia | discriminate].
Defined.








